(** * conmgr: a contact book with unique phones and emails

    A shallow embedding of [conmgr/contact.py], [conmgr/exceptions.py] and
    [conmgr/contact_mgr.py], and the properties of the specification checked
    against it.

    Conventions of the embedding.
    - A Python [str] is the [string] of the bytes of its UTF-8 encoding (a
      lone surrogate encoded as any other code point, so that every [str]
      has an encoding). Equality, concatenation and emptiness of texts are
      those of their encodings. Only the two patterns of [contact.py] look
      at characters: the bytes of ["@"], ["."] and the newline occur in an
      encoding as these characters only, and the decimal digits of Unicode
      other than ['0'..'9'] come from a table ([UnicodeData]), each by its
      bytes.
    - The email and the phone of a [Contact] are [str], as [re.match]
      demands; the two names and the address are [str | None] (nothing
      checks them, and a mapping read from a file may hold [null] there).
    - The contacts of a collection are values: each position of the list
      stands for an object of its own, which no caller changes behind the
      back of the collection. A list that holds one object at two positions
      has the same phone at both; what depends on the objects being
      distinct is stated for contacts with distinct phones.
    - A [dict] is a [gmap], a [set] a [gset].
    - An exception is a value of [exn]; a method of [ContactManager] is a
      function from the state of the object to a result or an exception,
      together with the state the call leaves behind.
    - [pathlib], [json] and the file system are libraries the code calls: the
      first two are interfaces ([PathLib], [JsonLib]), the third a finite map
      from path strings to directories and files. *)

From Stdlib Require Import Ascii String List Bool Arith Lia.
From stdpp Require Import base decidable option list gmap sets strings.

Local Open Scope stdpp_scope.

(* [simpl] may unfold the concatenation of strings on a constructor. *)
Local Arguments String.append !_ _ / : simpl nomatch.

(** ** Regular expressions, as far as [contact.py] uses them *)

Module re.

(** The syntax of the two patterns of [contact.py], over the bytes of a text:
    [.] (any byte but a newline), a literal byte, one of ['0'..'9'],
    concatenation, [*], and alternatives, which [\d] on a [str] needs for the
    other decimal digits (and derivatives need, with [Void]). *)
Inductive regex : Type :=
| Void
| Eps
| Dot
| Chr (c : ascii)
| Digit
| Cat (r1 r2 : regex)
| Alt (r1 r2 : regex)
| Star (r : regex).

Definition newline : ascii := "010"%char.

(** [.] without [re.DOTALL]. *)
Definition isdot (c : ascii) : bool := negb (Ascii.eqb c newline).

(** One of the digits ['0'..'9']. *)
Definition isdigit (c : ascii) : bool :=
  (Nat.leb 48 (nat_of_ascii c)) && (Nat.leb (nat_of_ascii c) 57).

(** The strings a pattern denotes. *)
Inductive matches : regex → string → Prop :=
| m_eps : matches Eps ""
| m_dot c : isdot c = true → matches Dot (String c "")
| m_chr c : matches (Chr c) (String c "")
| m_digit c : isdigit c = true → matches Digit (String c "")
| m_cat r1 r2 s1 s2 :
    matches r1 s1 → matches r2 s2 → matches (Cat r1 r2) (s1 +:+ s2)
| m_alt_l r1 r2 s : matches r1 s → matches (Alt r1 r2) s
| m_alt_r r1 r2 s : matches r2 s → matches (Alt r1 r2) s
| m_star_nil r : matches (Star r) ""
| m_star_app r s1 s2 :
    matches r s1 → matches (Star r) s2 → matches (Star r) (s1 +:+ s2).

Fixpoint nullable (r : regex) : bool :=
  match r with
  | Void | Dot | Chr _ | Digit => false
  | Eps | Star _ => true
  | Cat r1 r2 => nullable r1 && nullable r2
  | Alt r1 r2 => nullable r1 || nullable r2
  end.

(** The derivative of a pattern by a character. *)
Fixpoint deriv (c : ascii) (r : regex) : regex :=
  match r with
  | Void | Eps => Void
  | Dot => if isdot c then Eps else Void
  | Chr d => if Ascii.eqb c d then Eps else Void
  | Digit => if isdigit c then Eps else Void
  | Cat r1 r2 =>
      if nullable r1 then Alt (Cat (deriv c r1) r2) (deriv c r2)
      else Cat (deriv c r1) r2
  | Alt r1 r2 => Alt (deriv c r1) (deriv c r2)
  | Star r1 => Cat (deriv c r1) (Star r1)
  end.

(** [re.match(pattern, s)] as a truth value: the pattern is anchored at the
    start of [s] and may stop anywhere, so some prefix of [s] is matched. *)
Fixpoint match_ (r : regex) (s : string) : bool :=
  nullable r ||
  match s with
  | "" => false
  | String c s' => match_ (deriv c r) s'
  end.

(** [r{n}] *)
Fixpoint rep (n : nat) (r : regex) : regex :=
  match n with
  | O => Eps
  | S n' => Cat r (rep n' r)
  end.

Fixpoint all (f : ascii → bool) (s : string) : bool :=
  match s with
  | "" => true
  | String c s' => f c && all f s'
  end.

(** No character of [s] is a newline. *)
Definition no_newline (s : string) : bool := all isdot s.

(** The pattern that matches the text [s] and nothing else. *)
Fixpoint lit (s : string) : regex :=
  match s with
  | "" => Eps
  | String c s' => Cat (Chr c) (lit s')
  end.

(** One of the patterns of a list. *)
Definition alts (rs : list regex) : regex := foldr Alt Void rs.

(** [\d] on a [str]: a decimal digit of Unicode, that is one of ['0'..'9']
    or one of the others, given by their bytes. *)
Definition decimal (others : list string) : regex :=
  Alt Digit (alts (lit <$> others)).

End re.

(** ** contact.py *)

Definition FIRST_NAME_ATTR : string := "first_name".
Definition LAST_NAME_ATTR : string := "last_name".
Definition EMAIL_ATTR : string := "email".
Definition PHONE_ATTR : string := "phone".
Definition ADDR_ATTR : string := "address".

Definition ATTR_LIST : list string :=
  [FIRST_NAME_ATTR; LAST_NAME_ATTR; EMAIL_ATTR; PHONE_ATTR; ADDR_ATTR].

Definition ATTR_SET : gset string := list_to_set ATTR_LIST.

(** [r".*@.*\..*"] *)
Definition EMAIL_RE : re.regex :=
  re.Cat (re.Star re.Dot)
    (re.Cat (re.Chr "@")
       (re.Cat (re.Star re.Dot)
          (re.Cat (re.Chr ".") (re.Star re.Dot)))).

(** The part of the Unicode database that [\d] consults: the decimal digits
    (the characters of category Nd) other than ['0'..'9'], each as the bytes
    of its UTF-8 encoding. *)
Class UnicodeData : Type := {
  other_decimals : list string;
}.

(** [r"\d{9}"] *)
Definition PHONE_RE {UD : UnicodeData} : re.regex :=
  re.rep 9 (re.decimal other_decimals).

(** The texts of a list, one after the other. *)
Definition join (l : list string) : string := foldr String.append "" l.

(** The text [d] is one decimal digit. *)
Definition decimal_digit {UD : UnicodeData} (d : string) : Prop :=
  (∃ c, d = String c "" ∧ re.isdigit c = true) ∨ d ∈ other_decimals.

(** What the specification says of the two fields, on the text itself. An
    email has the shape of the first pattern when it holds an ["@"] and, after
    it, a ["."], with no newline before that ["."]; a phone has the shape of
    the second when it starts with nine decimal digits. *)
Definition email_shape (e : string) : Prop :=
  ∃ a b rest, e = a +:+ "@" +:+ b +:+ "." +:+ rest ∧
    re.no_newline a = true ∧ re.no_newline b = true.

Definition phone_shape {UD : UnicodeData} (p : string) : Prop :=
  ∃ ds rest, p = join ds +:+ rest ∧ length ds = 9 ∧ Forall decimal_digit ds.

(** The exceptions the code raises. [ValueError] carries its message; the two
    classes of [exceptions.py] carry the message their [__init__] builds. *)
Inductive exn : Type :=
| ValueError (msg : string)
| DuplicateEmailError (msg : string)
| DuplicatePhoneError (msg : string)
| KeyError (key : string)
| StopIteration
| TypeError
| AttributeError
| JSONDecodeError
| FileNotFoundError
| NotADirectoryError
| IsADirectoryError.

Record Contact : Type := mkContact {
  first_name : option string;
  last_name : option string;
  email : string;
  phone : string;
  address : option string;
}.

Global Instance Contact_eq_dec : EqDecision Contact.
Proof. solve_decision. Defined.

(** [Contact.__init__], for an email and a phone that are [str]. *)
Definition Contact__init__ {UD : UnicodeData} (first last : option string)
    (email phone : string) (addr : option string) : exn + Contact :=
  if negb (re.match_ EMAIL_RE email) then
    inl (ValueError ("Email " +:+ email +:+ " is invalid."))
  else if negb (re.match_ PHONE_RE phone) then
    inl (ValueError ("Phone " +:+ phone +:+ " is invalid."))
  else inr (mkContact first last email phone addr).

(** A contact with the email and the phone the constructor lets through. *)
Definition valid_contact {UD : UnicodeData} (c : Contact) : Prop :=
  email_shape (email c) ∧ phone_shape (phone c).

(** [Contact.__eq__], on two contacts *)
Definition Contact__eq__ (self other : Contact) : bool :=
  bool_decide (phone self = phone other) || bool_decide (email self = email other).

(** [!=] on contacts: Python negates [__eq__] where [__ne__] is not defined. *)
Definition Contact__ne__ (self other : Contact) : bool :=
  negb (Contact__eq__ self other).

(** [Contact.to_dict] *)
Definition to_dict (self : Contact) : gmap string (option string) :=
  <["first_name" := first_name self]>
  (<["last_name" := last_name self]>
  (<["email" := Some (email self)]>
  (<["phone" := Some (phone self)]>
  (<["address" := address self]> ∅)))).

(** A value of the mapping as the text of [re.match(pattern, v)]: on [None]
    [re.match] raises [TypeError]. *)
Definition as_str (v : option string) : exn + string :=
  match v with
  | Some s => inr s
  | None => inl TypeError
  end.

(** [Contact.from_dict]. After the comparison of the key sets every lookup
    [d[...]] finds its key. The constructor is called with the five values as
    they are: it matches the email, then the phone, and stores the names and
    the address unseen, [None] too. *)
Definition from_dict {UD : UnicodeData} (d : gmap string (option string))
  : exn + Contact :=
  if decide (ATTR_SET ≠ dom d) then
    inl (ValueError "Bad argument names passed to the constructor.")
  else
    match d !! FIRST_NAME_ATTR, d !! LAST_NAME_ATTR, d !! EMAIL_ATTR,
          d !! PHONE_ATTR, d !! ADDR_ATTR with
    | Some f, Some l, Some e, Some p, Some a =>
        match as_str e with
        | inr e =>
            match as_str p with
            | inr p => Contact__init__ f l e p a
            | inl err =>
                if negb (re.match_ EMAIL_RE e) then
                  inl (ValueError ("Email " +:+ e +:+ " is invalid."))
                else inl err
            end
        | inl err => inl err
        end
    | _, _, _, _, _ => inl (KeyError "")
    end.

(** [DuplicateEmailError(con)] and [DuplicatePhoneError(con)] of
    [exceptions.py] *)
Definition DuplicateEmailError__init__ (con : Contact) : exn :=
  DuplicateEmailError ("Email " +:+ email con +:+ " already exists.").

Definition DuplicatePhoneError__init__ (con : Contact) : exn :=
  DuplicatePhoneError ("Phone " +:+ phone con +:+ " already exists.").


(** ** The libraries [contact_mgr.py] calls *)

(** [pathlib]: what the code uses of [pathlib.Path]. *)
Class PathLib : Type := {
  Path : Type;
  Path_of_str : string → Path;            (* pl.Path(s) *)
  Path_str : Path → string;               (* str(p) *)
  Path_joinpath : Path → string → Path;   (* p / name *)
  Path_parent : Path → Path;              (* p.parent *)
  Path_suffix : Path → string;            (* p.suffix *)
}.

(** The laws of [pathlib] the round trip through a file rests on. *)
Class PathLibLaws (PL : PathLib) : Prop := {
  Path_of_str_str : ∀ p : Path, Path_of_str (Path_str p) = p;
  Path_parent_joinpath :
    ∀ p : Path, Path_parent (Path_joinpath p "contacts.json") = p;
  Path_suffix_joinpath :
    ∀ p : Path, Path_suffix (Path_joinpath p "contacts.json") = ".json";
}.

(** What [json.load] may find under a key of the object it returns. The
    first two constructors are the values of the type alias [ConMgrJSON],
    [dict[str, list[dict[str, str | None]] | str]], which is what [to_json]
    builds; the others are the values of JSON that are neither: an object,
    of which the code can only see the keys, [null], a Boolean and a number
    (by its text). The elements of a list are the mappings of the alias. *)
Inductive jvalue : Type :=
| JList (l : list (gmap string (option string)))
| JStr (s : string)
| JObj (keys : list string)
| JNull
| JBool (b : bool)
| JNum (literal : string).

Abbreviation ConMgrJSON := (gmap string jvalue).

(** [json]: the text of a file, [json.dump] to it and [json.load] from it
    ([None]: the text does not parse). *)
Class JsonLib : Type := {
  text : Type;
  json_dump : ConMgrJSON → text;
  json_load : text → option ConMgrJSON;
}.

Class JsonLibLaws (JL : JsonLib) : Prop := {
  json_load_dump : ∀ j : ConMgrJSON, json_load (json_dump j) = Some j;
}.

(** The file system: what is found under a path string. *)
Inductive node (T : Type) : Type :=
| Dir
| File (content : T).
Arguments Dir {T}.
Arguments File {T} content.

Abbreviation FS := (gmap string (node text)).

Section os.
Context {PL : PathLib} {JL : JsonLib}.

(** [p.exists()], [p.is_dir()], [p.is_file()] *)
Definition Path_exists (fs : FS) (p : Path) : bool :=
  match fs !! Path_str p with Some _ => true | None => false end.

Definition Path_is_dir (fs : FS) (p : Path) : bool :=
  match fs !! Path_str p with Some Dir => true | _ => false end.

Definition Path_is_file (fs : FS) (p : Path) : bool :=
  match fs !! Path_str p with Some (File _) => true | _ => false end.

(** [open(path, "r")] and reading the whole file *)
Definition open_r (fs : FS) (path : string) : exn + text :=
  match fs !! path with
  | Some (File t) => inr t
  | Some Dir => inl IsADirectoryError
  | None => inl FileNotFoundError
  end.

(** [open(path, "w")] and writing [t]: the file is created or replaced, in a
    directory that exists. *)
Definition open_w (fs : FS) (path : string) (t : text) : exn + FS :=
  match fs !! path with
  | Some Dir => inl IsADirectoryError
  | _ =>
      match fs !! Path_str (Path_parent (Path_of_str path)) with
      | Some Dir => inr (<[path := File t]> fs)
      | Some (File _) => inl NotADirectoryError
      | None => inl FileNotFoundError
      end
  end.

End os.

(** ** contact_mgr.py *)

Record ContactManager {PL : PathLib} : Type := mkContactManager {
  contacts : list Contact;
  store_path : Path;
  _phone_set : gset string;
  _email_set : gset string;
}.

Section methods.
Context {PL : PathLib}.

Definition with_contacts (l : list Contact) (self : ContactManager)
  : ContactManager :=
  mkContactManager _ l (store_path self) (_phone_set self) (_email_set self).

Definition with_phone_set (ps : gset string) (self : ContactManager)
  : ContactManager :=
  mkContactManager _ (contacts self) (store_path self) ps (_email_set self).

Definition with_email_set (es : gset string) (self : ContactManager)
  : ContactManager :=
  mkContactManager _ (contacts self) (store_path self) (_phone_set self) es.

(** A method call: from the state of [self] to the value returned or the
    exception raised, and the state of [self] afterwards. What a call did
    before it raised stays done. *)
Definition M (A : Type) : Type := ContactManager → (exn + A) * ContactManager.

Definition ret {A} (a : A) : M A := λ self, (inr a, self).

Definition raise {A} (e : exn) : M A := λ self, (inl e, self).

Definition bind {A B} (m : M A) (k : A → M B) : M B :=
  λ self,
    match m self with
    | (inr a, self') => k a self'
    | (inl e, self') => (inl e, self')
    end.

Definition get : M ContactManager := λ self, (inr self, self).

Definition modify (f : ContactManager → ContactManager) : M unit :=
  λ self, (inr tt, f self).

(** The notations [x ← m; k] and [m;; k] of stdpp stand for [bind]. *)
Global Instance M_ret : MRet M := @ret.
Global Instance M_bind : MBind M := λ A B k m, bind m k.

(** [s.remove(key)] on a set: [KeyError] when the key is not in it. *)
Definition set_remove (key : string) (s : gset string) : exn + gset string :=
  if decide (key ∈ s) then inr (s ∖ {[key]}) else inl (KeyError key).

(** [l.remove(con)] on a list of contacts: the first element equal to [con]
    by [Contact.__eq__] goes; [ValueError] when there is none. *)
Fixpoint list_remove (con : Contact) (l : list Contact)
  : exn + list Contact :=
  match l with
  | [] => inl (ValueError "list.remove(x): x not in list")
  | x :: l' =>
      if Contact__eq__ x con then inr l'
      else match list_remove con l' with
           | inr r => inr (x :: r)
           | inl e => inl e
           end
  end.

(** The truth value of an optional string argument: [None] and the empty
    string are false. *)
Definition truthy (v : option string) : bool :=
  match v with
  | Some s => negb (bool_decide (s = ""))
  | None => false
  end.

(** [ContactManager.add_contact] *)
Definition add_contact (new : Contact) : M unit :=
  self ← get;
  if decide (phone new ∈ _phone_set self) then
    raise (DuplicatePhoneError__init__ new)
  else if decide (email new ∈ _email_set self) then
    raise (DuplicateEmailError__init__ new)
  else
    modify (λ self, with_contacts (contacts self ++ [new]) self);;
    modify (λ self, with_phone_set ({[phone new]} ∪ _phone_set self) self);;
    modify (λ self, with_email_set ({[email new]} ∪ _email_set self) self).

(** [next(x for x in self.contacts if x.email == email)]: the first such
    contact, [StopIteration] when there is none. *)
Definition __find_contact_email (email_arg : string) : M Contact :=
  self ← get;
  match list_find (λ x, email x = email_arg) (contacts self) with
  | Some (_, x) => ret x
  | None => raise StopIteration
  end.

Definition __find_contact_phone (phone_arg : string) : M Contact :=
  self ← get;
  match list_find (λ x, phone x = phone_arg) (contacts self) with
  | Some (_, x) => ret x
  | None => raise StopIteration
  end.

(** [ContactManager.find_contact] *)
Definition find_contact (phone_arg email_arg : option string)
  : M (option Contact) :=
  if negb (truthy phone_arg) && negb (truthy email_arg) then
    raise (ValueError "Provide at least a phone number or an email.")
  else
    match phone_arg with
    | Some p =>
        self ← get;
        if decide (p ∈ _phone_set self) then
          (c ← __find_contact_phone p; ret (Some c))
        else ret None
    | None =>
        self ← get;
        match email_arg with
        | Some e =>
            if decide (e ∈ _email_set self) then
              (c ← __find_contact_email e; ret (Some c))
            else ret None
        | None => ret None
        end
    end.

(** [ContactManager.__remove_contact] *)
Definition __remove_contact (con : Contact) : M unit :=
  self ← get;
  match set_remove (phone con) (_phone_set self) with
  | inl e => raise e
  | inr ps =>
      modify (with_phone_set ps);;
      self ← get;
      match set_remove (email con) (_email_set self) with
      | inl e => raise e
      | inr es =>
          modify (with_email_set es);;
          self ← get;
          match list_remove con (contacts self) with
          | inl e => raise e
          | inr l => modify (with_contacts l)
          end
      end
  end.

(** [ContactManager.remove_contact]. The first component of the pair the
    phone branch yields says whether the method has returned there. *)
Definition remove_contact (phone_arg email_arg : option string) : M unit :=
  if negb (truthy phone_arg) && negb (truthy email_arg) then
    raise (ValueError "Provide at least a phone number or an email.")
  else
    returned ←
      match phone_arg with
      | Some p =>
          r ← find_contact (Some p) None;
          match r with
          | Some c => (__remove_contact c;; ret true)
          | None => ret false
          end
      | None => ret false
      end;
    if (returned : bool) then ret tt
    else
      r ← find_contact None email_arg;
      match r with
      | Some c => __remove_contact c
      | None => ret tt
      end.

(** [ContactManager.__swap_phone], [ContactManager.__swap_email] *)
Definition __swap_phone (c : Contact) (new : string) : M unit :=
  self ← get;
  match set_remove (phone c) (_phone_set self) with
  | inl e => raise e
  | inr ps =>
      modify (with_phone_set ps);;
      modify (λ self, with_phone_set ({[new]} ∪ _phone_set self) self)
  end.

Definition __swap_email (c : Contact) (new : string) : M unit :=
  self ← get;
  match set_remove (email c) (_email_set self) with
  | inl e => raise e
  | inr es =>
      modify (with_email_set es);;
      modify (λ self, with_email_set ({[new]} ∪ _email_set self) self)
  end.

Definition set_first_name (v : option string) (c : Contact) : Contact :=
  mkContact v (last_name c) (email c) (phone c) (address c).
Definition set_last_name (v : option string) (c : Contact) : Contact :=
  mkContact (first_name c) v (email c) (phone c) (address c).
Definition set_email (v : string) (c : Contact) : Contact :=
  mkContact (first_name c) (last_name c) v (phone c) (address c).
Definition set_phone (v : string) (c : Contact) : Contact :=
  mkContact (first_name c) (last_name c) (email c) v (address c).
Definition set_address (v : option string) (c : Contact) : Contact :=
  mkContact (first_name c) (last_name c) (email c) (phone c) v.

(** An assignment to an attribute of the contact object at position [i] of
    [self.contacts]. No other position holds this object. *)
Definition setattr (i : nat) (f : Contact → Contact) : M unit :=
  modify (λ self, with_contacts (alter f i (contacts self)) self).

(** One turn of the loop of [edit_contact] on the object [c], which is the
    element at position [i] of [self.contacts]; the value is what the turn
    prints. *)
Definition edit_attr (i : nat) (a v : string) : M (list string) :=
  self ← get;
  match contacts self !! i with
  | None => ret []
  | Some c =>
      if decide (a = "first_name") then
        setattr i (set_first_name (Some v));; ret []
      else if decide (a = "last_name") then
        setattr i (set_last_name (Some v));; ret []
      else if decide (a = "email") then
        __swap_email c v;; setattr i (set_email v);; ret []
      else if decide (a = "phone") then
        __swap_phone c v;; setattr i (set_phone v);; ret []
      else if decide (a = "address") then
        setattr i (set_address (Some v));; ret []
      else ret ["Invalid attribute '" +:+ a +:+ "'"]
  end.

Fixpoint edit_loop (i : nat) (updates : list (string * string))
  : M (list string) :=
  match updates with
  | [] => ret []
  | (a, v) :: rest =>
      out ← edit_attr i a v;
      out' ← edit_loop i rest;
      ret (out ++ out')
  end.

(** The body of [ContactManager.edit_contact], once the arguments are bound.
    [updates] are the keyword arguments in the order given, with values that
    are strings. The contact [find_contact] returns is an object of the
    list, the first one with the phone [phone_id]: the loop updates it in
    place. The value is the list of lines printed by a run that returns;
    [edit_contact_call] below has the binding of the arguments and the lines
    of every run. *)
Definition edit_contact (phone_id : string) (updates : list (string * string))
  : M (list string) :=
  c ← find_contact (Some phone_id) None;
  match c with
  | None => raise (ValueError "Invalid phone identifier.")
  | Some _ =>
      self ← get;
      match list_find (λ x, phone x = phone_id) (contacts self) with
      | Some (i, _) => edit_loop i updates
      | None => raise StopIteration
      end
  end.

(** The binding of the arguments of [self.edit_contact(phone_id, **updates)]:
    the names of the keyword arguments are distinct, and none is the name of
    a parameter of the method. Python raises [TypeError] otherwise, before
    the body runs. *)
Definition kwargs_ok (updates : list (string * string)) : Prop :=
  NoDup updates.*1 ∧ ("self" ∉ updates.*1) ∧ ("phone_id" ∉ updates.*1).

Global Instance kwargs_ok_dec (updates : list (string * string)) :
  Decision (kwargs_ok updates).
Proof. unfold kwargs_ok. apply _. Defined.

(** The loop of [edit_contact] with what it prints: the outcome, the lines
    printed up to the end of the loop or to the turn that raises, and the
    collection then. *)
Fixpoint edit_loop_out (i : nat) (updates : list (string * string))
    (self : ContactManager) : (exn + unit) * list string * ContactManager :=
  match updates with
  | [] => (inr tt, [], self)
  | (a, v) :: rest =>
      match edit_attr i a v self with
      | (inl e, self') => (inl e, [], self')
      | (inr out, self') =>
          let '(r, out', self'') := edit_loop_out i rest self' in
          (r, out ++ out', self'')
      end
  end.

(** A call [self.edit_contact(phone_id, **updates)]: the outcome, the lines
    printed and the collection after it. *)
Definition edit_contact_call (phone_id : string)
    (updates : list (string * string)) (self : ContactManager)
  : (exn + unit) * list string * ContactManager :=
  if decide (kwargs_ok updates) then
    match find_contact (Some phone_id) None self with
    | (inl e, self') => (inl e, [], self')
    | (inr None, self') =>
        (inl (ValueError "Invalid phone identifier."), [], self')
    | (inr (Some _), self') =>
        match list_find (λ x, phone x = phone_id) (contacts self') with
        | Some (i, _) => edit_loop_out i updates self'
        | None => (inl StopIteration, [], self')
        end
    end
  else (inl TypeError, [], self).

(** [ContactManager.to_json] *)
Definition to_json (self : ContactManager) : ConMgrJSON :=
  <["contacts" := JList (to_dict <$> contacts self)]>
  (<["store_path" := JStr (Path_str (store_path self))]> ∅).

End methods.

Section files.
Context {PL : PathLib} {JL : JsonLib} {UD : UnicodeData}.

(** [ContactManager.__init__]. [copy.deepcopy] of a list of contacts is the
    same list of values. The object under construction is lost when the
    constructor raises. *)
Definition ContactManager__init__ (fs : FS) (contacts_arg : list Contact)
    (store_path_arg : string) : exn + ContactManager :=
  let self :=
    mkContactManager _ contacts_arg
      (Path_joinpath (Path_of_str store_path_arg) "contacts.json")
      (list_to_set (phone <$> contacts_arg))
      (list_to_set (email <$> contacts_arg)) in
  if decide (length contacts_arg ≠ size (_phone_set self)) then
    inl (ValueError "Duplicate phone numbers in contacts list.")
  else if decide (length contacts_arg ≠ size (_email_set self)) then
    inl (ValueError "Duplicate emails in contacts list.")
  else
    let tmp_path := Path_of_str store_path_arg in
    if negb (Path_exists fs tmp_path) then
      inl (ValueError ("Path does not exist: '" +:+ store_path_arg +:+ "'"))
    else if negb (Path_is_dir fs tmp_path) then
      inl (ValueError "Path does not point to a directory.")
    else inr self.

(** [[Contact.from_dict(x) for x in l]] *)
Fixpoint from_dicts (l : list (gmap string (option string)))
  : exn + list Contact :=
  match l with
  | [] => inr []
  | x :: l' =>
      match from_dict x with
      | inl e => inl e
      | inr c =>
          match from_dicts l' with
          | inl e => inl e
          | inr cs => inr (c :: cs)
          end
      end
  end.

(** [ContactManager.from_file]. The comprehension iterates what is under
    ["contacts"]: a string character by character and an object key by key,
    and [from_dict] fails on the first of them, which has no [keys], with
    [AttributeError]; an empty string and an empty object give no contact;
    [null], a Boolean and a number cannot be iterated. Only a string under
    ["store_path"] is an argument of [pl.Path]. *)
Definition from_file (fs : FS) (path : Path) : exn + ContactManager :=
  if negb (Path_exists fs path) then
    inl (ValueError ("Path " +:+ Path_str path +:+ " does not exists."))
  else if negb (Path_is_file fs path) then
    inl (ValueError ("Path " +:+ Path_str path +:+ " does not point to a file."))
  else if negb (bool_decide (Path_suffix path = ".json")) then
    inl (ValueError
           ("Path " +:+ Path_str path +:+ " does not point to a JSON file."))
  else
    match open_r fs (Path_str path) with
    | inl e => inl e
    | inr t =>
        match json_load t with
        | None => inl JSONDecodeError
        | Some ret_ =>
            match ret_ !! "contacts", ret_ !! "store_path" with
            | None, _ => inl (ValueError "No contacts in the JSON file.")
            | Some _, None => inl (ValueError "No store_path in the JSON file.")
            | Some cs, Some sp =>
                let cons_ :=
                  match cs with
                  | JList l => from_dicts l
                  | JStr s => if decide (s = "") then inr [] else inl AttributeError
                  | JObj keys =>
                      if decide (keys = []) then inr [] else inl AttributeError
                  | JNull | JBool _ | JNum _ => inl TypeError
                  end in
                match cons_, sp with
                | inl e, _ => inl e
                | inr cons_, JStr s =>
                    let store := Path_parent (Path_of_str s) in
                    ContactManager__init__ fs cons_ (Path_str store)
                | inr _, _ => inl TypeError
                end
            end
        end
    end.

(** [ContactManager.to_file]: the file system after the call. When [open]
    raises, the file system is as it was. *)
Definition to_file (self : ContactManager) (fs : FS) : exn + FS :=
  let json_str := to_json self in
  match json_str !! "store_path" with
  | Some (JStr path) => open_w fs path (json_dump json_str)
  | _ => inl (KeyError "store_path")
  end.

End files.

(** ** An instance of the libraries, to run the definitions *)

Fixpoint has (c : ascii) (s : string) : bool :=
  match s with
  | "" => false
  | String d s' => Ascii.eqb c d || has c s'
  end.

(** The text before the last ["/"]. *)
Fixpoint dirname (s : string) : string :=
  match s with
  | "" => ""
  | String c s' => if has "/" s' then String c (dirname s') else ""
  end.

(** The text from the last ["."] of the last component on. *)
Fixpoint extension (s : string) : string :=
  match s with
  | "" => ""
  | String c s' =>
      if has "." s' || has "/" s' then extension s'
      else if Ascii.eqb c "." then s else ""
  end.

(** Paths that are their strings, joined with ["/"]. *)
Definition str_paths : PathLib := {|
  Path := string;
  Path_of_str := λ s, s;
  Path_str := λ p, p;
  Path_joinpath := λ p name, p +:+ "/" +:+ name;
  Path_parent := dirname;
  Path_suffix := extension;
|}.

(** Files that hold the object itself. *)
Definition obj_json : JsonLib := {|
  text := ConMgrJSON;
  json_dump := λ j, j;
  json_load := λ t, Some t;
|}.

(** A table with the Arabic-Indic digits, U+0660 to U+0669, for the decimal
    digits other than ['0'..'9']: in UTF-8 the byte 217 and one of the bytes
    160 to 169. *)
Definition arabic_indic_digit (b : ascii) : string :=
  String "217"%char (String b "").

#[global] Instance arabic_indic : UnicodeData := {|
  other_decimals :=
    arabic_indic_digit <$>
      ["160"; "161"; "162"; "163"; "164";
       "165"; "166"; "167"; "168"; "169"]%char;
|}.

(** The exception of [find_contact] and [remove_contact] for a call without
    a selector. *)
Definition no_selector : exn :=
  ValueError "Provide at least a phone number or an email.".

(** Unfolds the plumbing of method calls. *)
Ltac run := cbv [mbind M_bind mret M_ret bind ret raise get modify].

(** Splits one turn of the loop of [edit_contact] into its cases. *)
Ltac edit_cases :=
  unfold edit_attr, __swap_email, __swap_phone, set_remove, setattr; run;
  repeat (case_decide || case_match); simpl.

(** ** The scenario of the specification

    Two contacts in a book kept in the directory ["store"]. *)

Definition jake : Contact :=
  mkContact (Some "jake") (Some "smith") "jake@x.com" "111111111" None.
Definition ann : Contact :=
  mkContact (Some "ann") (Some "lee") "ann@y.com" "222222222" None.

Definition store_fs : gmap string (node (@text obj_json)) := {[ "store" := Dir ]}.

Definition book : @ContactManager str_paths :=
  mkContactManager str_paths [jake; ann] "store/contacts.json"
    (list_to_set ["111111111"; "222222222"])
    (list_to_set ["jake@x.com"; "ann@y.com"]).

(** The book after [edit_contact("111111111", phone="222222222")], and after
    [edit_contact("222222222", phone="333333333")] on top of it. *)
Definition book1 : @ContactManager str_paths :=
  mkContactManager str_paths
    [mkContact (Some "jake") (Some "smith") "jake@x.com" "222222222" None; ann]
    "store/contacts.json"
    (list_to_set ["222222222"])
    (list_to_set ["jake@x.com"; "ann@y.com"]).

Definition book2 : @ContactManager str_paths :=
  mkContactManager str_paths
    [mkContact (Some "jake") (Some "smith") "jake@x.com" "333333333" None; ann]
    "store/contacts.json"
    (list_to_set ["333333333"])
    (list_to_set ["jake@x.com"; "ann@y.com"]).

(** The book after [edit_contact("111111111", phone="")],
    [edit_contact("222222222", email="jake@x.com")] and
    [remove_contact(phone="222222222")]: [list.remove] has dropped jake, the
    first contact equal to ann, by the email; ann stays, and the empty
    string stays in the phone index with no contact that has it. *)
Definition book3 : @ContactManager str_paths :=
  mkContactManager str_paths
    [mkContact (Some "ann") (Some "lee") "jake@x.com" "222222222" None]
    "store/contacts.json"
    (list_to_set [""])
    ∅.

(** ** The invariant of the collection *)

(** The index sets are the phones and the emails of the contacts. *)
Definition index_inv {PL : PathLib} (self : ContactManager) : Prop :=
  _phone_set self = list_to_set (phone <$> contacts self) ∧
  _email_set self = list_to_set (email <$> contacts self).

(** No two contacts share a phone, and no two share an email. *)
Definition unique_inv {PL : PathLib} (self : ContactManager) : Prop :=
  NoDup (phone <$> contacts self) ∧ NoDup (email <$> contacts self).

(** The invariant of the specification: both of them. *)
Definition inv {PL : PathLib} (self : ContactManager) : Prop :=
  index_inv self ∧ unique_inv self.

(** From a state where [P] holds, the call [m] ends, with the result [r] in
    the state [self'], where [Q r self'] holds. *)
Definition hoare {PL : PathLib} {A} (P : ContactManager → Prop) (m : M A)
    (Q : exn + A → ContactManager → Prop) : Prop :=
  ∀ self, P self → Q (m self).1 (m self).2.

(** ** Callers

    A call of one of the three methods that do not edit a contact, and the
    state of the collection after a caller has made a list of such calls in
    turn, going on after a call that raised. *)
Inductive call : Type :=
| CallAdd (c : Contact)
| CallFind (phone_arg email_arg : option string)
| CallRemove (phone_arg email_arg : option string).

Definition after_call {PL : PathLib} (self : ContactManager) (k : call)
  : ContactManager :=
  match k with
  | CallAdd c => (add_contact c self).2
  | CallFind p e => (find_contact p e self).2
  | CallRemove p e => (remove_contact p e self).2
  end.

Definition after_calls {PL : PathLib} (ks : list call) (self : ContactManager)
  : ContactManager :=
  foldl after_call self ks.

(** ** What an edit leaves alone *)

(** [self] differs from [self0] at most in the contact at position [i] and
    in the index sets. *)
Definition frame {PL : PathLib} (i : nat) (self0 self : ContactManager)
  : Prop :=
  store_path self = store_path self0 ∧
  length (contacts self) = length (contacts self0) ∧
  ∀ j, j ≠ i → contacts self !! j = contacts self0 !! j.

(** [self] has the index sets of [self0], and its contacts have, position by
    position, the phones and the emails of those of [self0]. *)
Definition same_keys {PL : PathLib} (self0 self : ContactManager) : Prop :=
  _phone_set self = _phone_set self0 ∧
  _email_set self = _email_set self0 ∧
  phone <$> contacts self = phone <$> contacts self0 ∧
  email <$> contacts self = email <$> contacts self0.

(** ** Strings *)

Lemma append_nil_r (s : string) : s +:+ "" = s.
Proof. induction s as [|c s IH]; simpl; [done | by rewrite IH]. Qed.

Lemma append_assoc (s1 s2 s3 : string) :
  (s1 +:+ s2) +:+ s3 = s1 +:+ (s2 +:+ s3).
Proof. induction s1 as [|c s1 IH]; simpl; [done | by rewrite IH]. Qed.

Lemma append_eq_nil (s1 s2 : string) : s1 +:+ s2 = "" → s1 = "" ∧ s2 = "".
Proof. destruct s1; simpl; [done | discriminate]. Qed.

Lemma append_eq_cons (s1 s2 s : string) (c : ascii) :
  s1 +:+ s2 = String c s →
  (s1 = "" ∧ s2 = String c s) ∨ (∃ s1', s1 = String c s1' ∧ s = s1' +:+ s2).
Proof.
  destruct s1 as [|d s1]; simpl; intros E; [by left | right].
  injection E as -> <-. by exists s1.
Qed.

(** ** Regular expressions: the matcher decides the denotation *)

Lemma nullable_matches (r : re.regex) :
  re.nullable r = true ↔ re.matches r "".
Proof.
  split.
  - induction r; simpl; intros H; try discriminate.
    + constructor.
    + apply andb_true_iff in H as [H1 H2].
      change "" with ("" +:+ ""). constructor; auto.
    + apply orb_true_iff in H as [H|H];
        [apply re.m_alt_l | apply re.m_alt_r]; auto.
    + constructor.
  - intros H. remember "" as s eqn:E. induction H; simpl; try done.
    + apply append_eq_nil in E as [-> ->]. rewrite IHmatches1, IHmatches2; done.
    + rewrite IHmatches; done.
    + rewrite IHmatches; [apply orb_true_r | done].
Qed.

Lemma deriv_sound (c : ascii) (r : re.regex) (s : string) :
  re.matches (re.deriv c r) s → re.matches r (String c s).
Proof.
  revert s. induction r; simpl; intros s H.
  - inversion H.
  - inversion H.
  - destruct (re.isdot c) eqn:E; inversion H; subst. by constructor.
  - destruct (Ascii.eqb_spec c c0); inversion H; subst. constructor.
  - destruct (re.isdigit c) eqn:E; inversion H; subst. by constructor.
  - destruct (re.nullable r1) eqn:N.
    + inversion H as [| | | | | ? ? ? H1 | ? ? ? H2 | |]; subst.
      * inversion H1; subst.
        change (String c (s1 +:+ s2)) with (String c s1 +:+ s2).
        constructor; auto.
      * change (String c s) with ("" +:+ String c s).
        constructor; [by apply nullable_matches | auto].
    + inversion H; subst.
      change (String c (s1 +:+ s2)) with (String c s1 +:+ s2).
      constructor; auto.
  - inversion H; subst; [apply re.m_alt_l | apply re.m_alt_r]; auto.
  - inversion H; subst.
    change (String c (s1 +:+ s2)) with (String c s1 +:+ s2).
    constructor; auto.
Qed.

Lemma deriv_complete (c : ascii) (r : re.regex) (s : string) :
  re.matches r (String c s) → re.matches (re.deriv c r) s.
Proof.
  intros H. remember (String c s) as s0 eqn:E. revert c s E.
  induction H; intros c' s' E; simpl; try discriminate.
  - injection E as -> <-. rewrite H. constructor.
  - injection E as -> <-. rewrite Ascii.eqb_refl. constructor.
  - injection E as -> <-. rewrite H. constructor.
  - apply append_eq_cons in E as [[-> ->] | (s1' & -> & ->)].
    + apply nullable_matches in H. rewrite H. apply re.m_alt_r. auto.
    + destruct (re.nullable r1);
        [apply re.m_alt_l |]; constructor; auto.
  - apply re.m_alt_l. auto.
  - apply re.m_alt_r. auto.
  - apply append_eq_cons in E as [[-> ->] | (s1' & -> & ->)].
    + apply (IHmatches2 c' s' eq_refl).
    + constructor; auto.
Qed.

(** [re.match] succeeds exactly when the pattern denotes a prefix. *)
Lemma match_spec (r : re.regex) (s : string) :
  re.match_ r s = true ↔ ∃ p q, s = p +:+ q ∧ re.matches r p.
Proof.
  revert r. induction s as [|c s IH]; intros r; simpl.
  - rewrite orb_false_r. split.
    + intros H. exists "", "". split; [done | by apply nullable_matches].
    + intros (p & q & E & H). symmetry in E.
      apply append_eq_nil in E as [-> ->]. by apply nullable_matches.
  - rewrite orb_true_iff, IH. split.
    + intros [H | (p & q & -> & H)].
      * exists "", (String c s). split; [done | by apply nullable_matches].
      * exists (String c p), q. split; [done | by apply deriv_sound].
    + intros (p & q & E & H). symmetry in E.
      apply append_eq_cons in E as [[-> ->] | (p' & -> & ->)].
      * left. by apply nullable_matches.
      * right. exists p', q. split; [done | by apply deriv_complete].
Qed.


(** ** The two patterns of [contact.py] *)

Lemma star_dot_matches (s : string) :
  re.matches (re.Star re.Dot) s ↔ re.no_newline s = true.
Proof.
  split.
  - intros H. remember (re.Star re.Dot) as r eqn:E.
    induction H; try discriminate; [done |].
    injection E as ->. specialize (IHmatches2 eq_refl).
    inversion H as [|c Hc| | | | | | |]; subst.
    unfold re.no_newline in *. simpl. by rewrite Hc.
  - induction s as [|c s IH]; [constructor |].
    unfold re.no_newline. simpl. intros [H1 H2]%andb_true_iff.
    change (String c s) with (String c "" +:+ s).
    constructor; [by constructor | by apply IH].
Qed.

Lemma email_re_matches (p : string) :
  re.matches EMAIL_RE p ↔
  ∃ a b c, p = a +:+ "@" +:+ b +:+ "." +:+ c ∧
    re.no_newline a = true ∧ re.no_newline b = true ∧ re.no_newline c = true.
Proof.
  unfold EMAIL_RE. split.
  - intros H.
    inversion H as [| | | |? ? a s2 Ha H2| | | |]; subst.
    inversion H2 as [| | | |? ? x s3 Hx H3| | | |]; subst.
    inversion H3 as [| | | |? ? b s4 Hb H4| | | |]; subst.
    inversion H4 as [| | | |? ? y c Hy Hc| | | |]; subst.
    inversion Hx; subst. inversion Hy; subst.
    exists a, b, c. by rewrite <- !star_dot_matches.
  - intros (a & b & c & -> & Ha & Hb & Hc).
    repeat (constructor; try by apply star_dot_matches).
Qed.

(** An email passes [re.match(r".*@.*\..*", email)] when it has an ["@"]
    and a later ["."], with no newline before that ["."]. *)
Lemma email_match_spec (e : string) :
  re.match_ EMAIL_RE e = true ↔ email_shape e.
Proof.
  rewrite match_spec. unfold email_shape. split.
  - intros (p & q & -> & (a & b & c & -> & Ha & Hb & _)%email_re_matches).
    exists a, b, (c +:+ q). split; [| done].
    by rewrite !append_assoc.
  - intros (a & b & rest & -> & Ha & Hb).
    exists (a +:+ "@" +:+ b +:+ "." +:+ ""), rest. split.
    + by rewrite !append_assoc.
    + apply email_re_matches. by exists a, b, "".
Qed.

Lemma lit_matches (s x : string) : re.matches (re.lit s) x ↔ x = s.
Proof.
  revert x. induction s as [|c s IH]; intros x; simpl.
  - split; [intros H; by inversion H | intros ->; constructor].
  - split.
    + intros H. inversion H as [| | | |? ? s1 s2 H1 H2| | | |]; subst.
      inversion H1; subst. apply IH in H2 as ->. done.
    + intros ->. change (String c s) with (String c "" +:+ s).
      constructor; [constructor | by apply IH].
Qed.

Lemma alts_matches (rs : list re.regex) (x : string) :
  re.matches (re.alts rs) x ↔ ∃ r, r ∈ rs ∧ re.matches r x.
Proof.
  induction rs as [|r rs IH]; simpl.
  - split; [intros H; inversion H | intros (r & Hr & _)].
    by apply elem_of_nil in Hr.
  - split.
    + intros H. inversion H; subst.
      * exists r. split; [by left | done].
      * destruct IH as [IH _]. destruct IH as (r' & Hr' & Hm); [done |].
        exists r'. split; [by right | done].
    + intros (r' & [->|Hr']%elem_of_cons & Hm).
      * by apply re.m_alt_l.
      * apply re.m_alt_r, IH. by exists r'.
Qed.

(** [\d] matches the texts that are one decimal digit. *)
Lemma decimal_matches {UD : UnicodeData} (d : string) :
  re.matches (re.decimal other_decimals) d ↔ decimal_digit d.
Proof.
  unfold re.decimal, decimal_digit. split.
  - intros H. inversion H as [| | | | |? ? ? H1|? ? ? H2| |]; subst.
    + left. inversion H1; subst. eauto.
    + right. apply alts_matches in H2 as (r & Hr & Hm).
      apply list_elem_of_fmap in Hr as (s & -> & Hs).
      by apply lit_matches in Hm as ->.
  - intros [(c & -> & Hc) | Hd].
    + apply re.m_alt_l. by constructor.
    + apply re.m_alt_r, alts_matches. exists (re.lit d).
      split; [by apply list_elem_of_fmap_2 | by apply lit_matches].
Qed.

Lemma rep_matches (n : nat) (r : re.regex) (d : string) :
  re.matches (re.rep n r) d ↔
  ∃ ds, d = join ds ∧ length ds = n ∧ Forall (re.matches r) ds.
Proof.
  revert d. induction n as [|n IH]; intros d; simpl.
  - split.
    + intros H. inversion H. by exists [].
    + intros (ds & -> & Hl & _). destruct ds; [constructor | discriminate].
  - split.
    + intros H. inversion H as [| | | |? ? s1 s2 H1 H2| | | |]; subst.
      apply IH in H2 as (ds & -> & <- & Hds).
      exists (s1 :: ds). split; [done |]. split; [done | by constructor].
    + intros (ds & -> & Hl & Hds). destruct ds as [|s1 ds]; [discriminate |].
      apply Forall_cons in Hds as [H1 Hds]. simpl.
      constructor; [done |]. apply IH. exists ds.
      split; [done |]. split; [by injection Hl | done].
Qed.

(** A phone passes [re.match(r"\d{9}", phone)] when its first nine
    characters are decimal digits. *)
Lemma phone_match_spec {UD : UnicodeData} (p : string) :
  re.match_ PHONE_RE p = true ↔ phone_shape p.
Proof.
  rewrite match_spec. unfold phone_shape, PHONE_RE. split.
  - intros (d & q & -> & (ds & -> & Hl & Hds)%rep_matches).
    exists ds, q. split; [done |]. split; [done |].
    eapply Forall_impl; [exact Hds |]. intros x. by apply decimal_matches.
  - intros (ds & q & -> & Hl & Hds). exists (join ds), q. split; [done |].
    apply rep_matches. exists ds. split; [done |]. split; [done |].
    eapply Forall_impl; [exact Hds |]. intros x. by apply decimal_matches.
Qed.

(** Nine digits of ['0'..'9'] in front are nine decimal digits. *)
Lemma phone_shape_ascii {UD : UnicodeData} (d rest : string) :
  String.length d = 9 → re.all re.isdigit d = true → phone_shape (d +:+ rest).
Proof.
  intros Hl Hd.
  assert (∀ n s, String.length s = n → re.all re.isdigit s = true →
            ∃ ds, s = join ds ∧ length ds = n ∧ Forall decimal_digit ds) as H.
  { clear. induction n as [|n IH]; intros [|c s] Hl Hd; try discriminate.
    - by exists [].
    - simpl in Hd. apply andb_true_iff in Hd as [Hc Hd].
      destruct (IH s) as (ds & -> & <- & Hds); [by injection Hl | done |].
      exists (String c "" :: ds). split; [done |]. split; [done |].
      constructor; [| done]. left. eauto. }
  destruct (H 9 d Hl Hd) as (ds & -> & Hds). by exists ds, rest.
Qed.


(** ** Contact *)

Lemma Contact__init___inr {UD : UnicodeData} (first last : option string)
    (e p : string) (addr : option string) :
  email_shape e → phone_shape p →
  Contact__init__ first last e p addr = inr (mkContact first last e p addr).
Proof.
  intros He%email_match_spec Hp%phone_match_spec.
  unfold Contact__init__. by rewrite He, Hp.
Qed.

Lemma Contact__init___valid {UD : UnicodeData} (first last : option string)
    (e p : string) (addr : option string) (c : Contact) :
  Contact__init__ first last e p addr = inr c →
  c = mkContact first last e p addr ∧ valid_contact c.
Proof.
  unfold Contact__init__, valid_contact.
  destruct (re.match_ EMAIL_RE e) eqn:He; simpl; [| discriminate].
  destruct (re.match_ PHONE_RE p) eqn:Hp; simpl; [| discriminate].
  intros [= <-]. simpl. by rewrite <- email_match_spec, <- phone_match_spec.
Qed.

(** C3. With an email of the shape [.*@.*\..*] and a phone that starts with
    nine decimal digits, [Contact(first, last, email, phone, addr)] returns a
    contact whose five attributes are the five arguments; with an email that
    has not that shape, or a phone that does not start with nine decimal
    digits, it raises [ValueError]. The digits are those of [\d] on a [str]:
    ['0'..'9'] and the other decimal digits of Unicode, whatever the table
    of these is. *)
Theorem C3_construct {UD : UnicodeData} (first last : option string)
    (e p : string) (addr : option string) :
  (email_shape e ∧ phone_shape p →
   ∃ c, Contact__init__ first last e p addr = inr c ∧
        first_name c = first ∧ last_name c = last ∧ email c = e ∧
        phone c = p ∧ address c = addr) ∧
  (¬ email_shape e ∨ ¬ phone_shape p →
   ∃ msg, Contact__init__ first last e p addr = inl (ValueError msg)).
Proof.
  split.
  - intros [He Hp]. eexists. split; [by apply Contact__init___inr |]. done.
  - rewrite <- email_match_spec, <- phone_match_spec.
    unfold Contact__init__. intros H.
    destruct (re.match_ EMAIL_RE e); simpl; [| by eexists].
    destruct (re.match_ PHONE_RE p); simpl; [| by eexists].
    by destruct H as [H|H]; destruct H.
Qed.

Lemma C3_construct_witness :
  (∃ c, Contact__init__ (Some "jake") (Some "smith") "jake.smith@mail.com" "999999999"
          (Some "pl. Defilad 1, 00-901 Warsaw") = inr c ∧
        first_name c = Some "jake" ∧ last_name c = Some "smith" ∧
        email c = "jake.smith@mail.com" ∧ phone c = "999999999" ∧
        address c = Some "pl. Defilad 1, 00-901 Warsaw") ∧
  (∃ c, Contact__init__ (Some "") (Some "") "a@b.c"
          (join (replicate 9 (arabic_indic_digit "163"))) None = inr c ∧
        phone c = join (replicate 9 (arabic_indic_digit "163"))) ∧
  (∃ msg, Contact__init__ (Some "") (Some "") "asdf" "999999999" (Some "")
          = inl (ValueError msg)) ∧
  (∃ msg, Contact__init__ (Some "") (Some "") "a@b.c" "12345678x" None
          = inl (ValueError msg)).
Proof.
  split; [| split; [| split]].
  - apply (proj1 (C3_construct (Some "jake") (Some "smith") "jake.smith@mail.com"
                    "999999999" (Some "pl. Defilad 1, 00-901 Warsaw"))).
    split.
    + by exists "jake.smith", "mail", "com".
    + by apply phone_match_spec.
  - destruct (proj1 (C3_construct (Some "") (Some "") "a@b.c"
                       (join (replicate 9 (arabic_indic_digit "163"))) None))
      as (c & Hc & _ & _ & _ & Hp & _).
    + split; [by exists "a", "b", "c" | by apply phone_match_spec].
    + by exists c.
  - apply (proj2 (C3_construct (Some "") (Some "") "asdf" "999999999" (Some ""))).
    left. intros H%email_match_spec. vm_compute in H. discriminate.
  - apply (proj2 (C3_construct (Some "") (Some "") "a@b.c" "12345678x" None)).
    right. intros H%phone_match_spec. vm_compute in H. discriminate.
Defined.

(** C7. [a == b] on contacts holds exactly when the phones or the emails
    agree. The relation is reflexive and symmetric, and not transitive: with
    phones [P ≠ Q] and emails [E1 ≠ E2], the contact [(P, E1)] equals
    [(P, E2)], which equals [(Q, E2)], and [(P, E1)] differs from [(Q, E2)]. *)
Theorem C7_equality :
  (∀ a b, Contact__eq__ a b = true ↔ phone a = phone b ∨ email a = email b) ∧
  (∀ a, Contact__eq__ a a = true) ∧
  (∀ a b, Contact__eq__ a b = Contact__eq__ b a) ∧
  (∀ (P Q E1 E2 : string) (f1 l1 f2 l2 f3 l3 a1 a2 a3 : option string),
     P ≠ Q → E1 ≠ E2 →
     Contact__eq__ (mkContact f1 l1 E1 P a1) (mkContact f2 l2 E2 P a2) = true ∧
     Contact__eq__ (mkContact f2 l2 E2 P a2) (mkContact f3 l3 E2 Q a3) = true ∧
     Contact__eq__ (mkContact f1 l1 E1 P a1) (mkContact f3 l3 E2 Q a3) = false ∧
     Contact__ne__ (mkContact f1 l1 E1 P a1) (mkContact f3 l3 E2 Q a3) = true).
Proof.
  unfold Contact__ne__, Contact__eq__. repeat split.
  - intros [H|H]%orb_true_iff; apply bool_decide_eq_true in H; auto.
  - intros [H|H]; apply orb_true_iff; [left | right];
      by apply bool_decide_eq_true.
  - intros a. by rewrite bool_decide_eq_true_2.
  - intros a b.
    by rewrite (bool_decide_ext (phone a = phone b) (phone b = phone a)),
      (bool_decide_ext (email a = email b) (email b = email a)).
  - simpl. by rewrite bool_decide_eq_true_2.
  - simpl. rewrite (bool_decide_eq_true_2 (E2 = E2)); [apply orb_true_r | done].
  - simpl. by rewrite !bool_decide_eq_false_2.
  - simpl. by rewrite !bool_decide_eq_false_2.
Qed.

Lemma C7_equality_witness :
  Contact__eq__ (mkContact (Some "") (Some "") "jake.smith@mail.com" "999999999" None)
                (mkContact (Some "") (Some "") "test@mail.com" "999999999" None) = true ∧
  Contact__eq__ (mkContact (Some "") (Some "") "test@mail.com" "999999999" None)
                (mkContact (Some "") (Some "") "test@mail.com" "123123123" None) = true ∧
  Contact__eq__ (mkContact (Some "") (Some "") "jake.smith@mail.com" "999999999" None)
                (mkContact (Some "") (Some "") "test@mail.com" "123123123" None) = false ∧
  Contact__ne__ (mkContact (Some "") (Some "") "jake.smith@mail.com" "999999999" None)
                (mkContact (Some "") (Some "") "test@mail.com" "123123123" None) = true.
Proof.
  apply (proj2 (proj2 (proj2 C7_equality))
           "999999999" "123123123" "jake.smith@mail.com" "test@mail.com");
    discriminate.
Defined.

Lemma to_dict_dom (c : Contact) : dom (to_dict c) = ATTR_SET.
Proof.
  unfold to_dict, ATTR_SET, ATTR_LIST. rewrite !dom_insert_L, dom_empty_L.
  reflexivity.
Qed.

Lemma from_dict_to_dict {UD : UnicodeData} (c : Contact) :
  valid_contact c → from_dict (to_dict c) = inr c.
Proof.
  intros [He Hp]. unfold from_dict. rewrite to_dict_dom.
  destruct (decide (ATTR_SET ≠ ATTR_SET)) as [? | _]; [done |].
  unfold to_dict, FIRST_NAME_ATTR, LAST_NAME_ATTR, EMAIL_ATTR, PHONE_ATTR,
    ADDR_ATTR.
  simplify_map_eq. simpl.
  rewrite Contact__init___inr by done. by destruct c.
Qed.

(** C6. For a valid contact [c], [Contact.from_dict(c.to_dict())] returns a
    contact that is equal to [c] by [==] and has the five attributes of [c]. *)
Theorem C6_dict_roundtrip {UD : UnicodeData} (c : Contact) :
  valid_contact c →
  ∃ c', from_dict (to_dict c) = inr c' ∧
        Contact__eq__ c' c = true ∧
        first_name c' = first_name c ∧ last_name c' = last_name c ∧
        email c' = email c ∧ phone c' = phone c ∧ address c' = address c.
Proof.
  intros Hv. exists c. split; [by apply from_dict_to_dict |].
  split; [| done]. unfold Contact__eq__. by rewrite bool_decide_eq_true_2.
Qed.

Lemma C6_dict_roundtrip_witness :
  ∃ c', from_dict
          (to_dict (mkContact (Some "jake") (Some "smith") "jake.smith@mail.com"
                      "999999999" None)) = inr c' ∧
        Contact__eq__ c' (mkContact (Some "jake") (Some "smith") "jake.smith@mail.com"
                            "999999999" None) = true ∧
        first_name c' = Some "jake" ∧ last_name c' = Some "smith" ∧
        email c' = "jake.smith@mail.com" ∧ phone c' = "999999999" ∧
        address c' = None.
Proof.
  apply (C6_dict_roundtrip
           (mkContact (Some "jake") (Some "smith") "jake.smith@mail.com" "999999999" None)).
  split.
  - by exists "jake.smith", "mail", "com".
  - by apply phone_match_spec.
Defined.

(** ** ContactManager *)

Section manager_facts.
Context {PL : PathLib}.

Lemma add_contact_dup_phone (self : ContactManager) (c : Contact) :
  phone c ∈ _phone_set self →
  add_contact c self = (inl (DuplicatePhoneError__init__ c), self).
Proof. intros H. unfold add_contact. run. by rewrite decide_True. Qed.

Lemma add_contact_dup_email (self : ContactManager) (c : Contact) :
  phone c ∉ _phone_set self → email c ∈ _email_set self →
  add_contact c self = (inl (DuplicateEmailError__init__ c), self).
Proof.
  intros Hp He. unfold add_contact. run.
  by rewrite decide_False, decide_True.
Qed.

Lemma add_contact_fresh (self : ContactManager) (c : Contact) :
  phone c ∉ _phone_set self → email c ∉ _email_set self →
  add_contact c self =
    (inr tt,
     mkContactManager _ (contacts self ++ [c]) (store_path self)
       ({[phone c]} ∪ _phone_set self) ({[email c]} ∪ _email_set self)).
Proof.
  intros Hp He. unfold add_contact. run.
  by rewrite !decide_False.
Qed.

(** C4. [add_contact(c)] raises [DuplicatePhoneError(c)] when the phone of
    [c] is in the phone index, whatever its email; raises
    [DuplicateEmailError(c)] when only the email of [c] is in its index; and
    otherwise appends [c] to the contacts and adds its phone and its email to
    the two index sets. *)
Theorem C4_add_contact (self : ContactManager) (c : Contact) :
  (phone c ∈ _phone_set self →
   add_contact c self = (inl (DuplicatePhoneError__init__ c), self)) ∧
  (phone c ∉ _phone_set self → email c ∈ _email_set self →
   add_contact c self = (inl (DuplicateEmailError__init__ c), self)) ∧
  (phone c ∉ _phone_set self → email c ∉ _email_set self →
   ∃ self', add_contact c self = (inr tt, self') ∧
     contacts self' = contacts self ++ [c] ∧
     _phone_set self' = {[phone c]} ∪ _phone_set self ∧
     _email_set self' = {[email c]} ∪ _email_set self ∧
     store_path self' = store_path self).
Proof.
  split; [apply add_contact_dup_phone |].
  split; [apply add_contact_dup_email |].
  intros Hp He. eexists. split; [by apply add_contact_fresh | done].
Qed.

(** C9. When [add_contact(c)] raises, the exception is one of the two
    duplicate errors, and the contacts, the phone index and the email index
    are what they were before the call. *)
Theorem C9_add_contact_atomic (self self' : ContactManager) (c : Contact)
    (e : exn) :
  add_contact c self = (inl e, self') →
  (e = DuplicatePhoneError__init__ c ∨ e = DuplicateEmailError__init__ c) ∧
  contacts self' = contacts self ∧
  _phone_set self' = _phone_set self ∧
  _email_set self' = _email_set self ∧
  self' = self.
Proof.
  destruct (decide (phone c ∈ _phone_set self)) as [Hp|Hp].
  { rewrite add_contact_dup_phone by done. intros [= <- <-]. auto. }
  destruct (decide (email c ∈ _email_set self)) as [He|He].
  { rewrite add_contact_dup_email by done. intros [= <- <-]. auto 6. }
  rewrite add_contact_fresh by done. discriminate.
Qed.

(** [find_contact] does not change the collection. *)
Lemma find_contact_state (self : ContactManager) (p e : option string) :
  (find_contact p e self).2 = self.
Proof.
  unfold find_contact, __find_contact_phone, __find_contact_email. run.
  destruct (negb (truthy p) && negb (truthy e)); [done |].
  destruct p as [p|].
  - destruct (decide (p ∈ _phone_set self)); [| done].
    by destruct (list_find _ _) as [[? ?]|].
  - destruct e as [e|]; [| done].
    destruct (decide (e ∈ _email_set self)); [| done].
    by destruct (list_find _ _) as [[? ?]|].
Qed.

Lemma find_contact_no_selector (self : ContactManager) (p e : option string) :
  truthy p = false → truthy e = false →
  find_contact p e self = (inl no_selector, self).
Proof. intros Hp He. unfold find_contact. run. by rewrite Hp, He. Qed.

Lemma remove_contact_no_selector (self : ContactManager) (p e : option string) :
  truthy p = false → truthy e = false →
  remove_contact p e self = (inl no_selector, self).
Proof. intros Hp He. unfold remove_contact. run. by rewrite Hp, He. Qed.

Lemma truthy_Some (s : string) : s ≠ "" → truthy (Some s) = true.
Proof. intros H. simpl. by rewrite bool_decide_eq_false_2. Qed.

(** A phone that is given and not indexed: the lookup by phone finds nothing. *)
Lemma find_contact_phone_miss (self : ContactManager) (p : string)
    (e : option string) :
  truthy (Some p) || truthy e = true → p ∉ _phone_set self →
  find_contact (Some p) e self = (inr None, self).
Proof.
  intros Ht Hp. unfold find_contact. run.
  destruct (truthy (Some p)), (truthy e); try discriminate; simpl;
    by rewrite decide_False.
Qed.

Lemma find_contact_email_miss (self : ContactManager) (e : string) :
  e ≠ "" → e ∉ _email_set self →
  find_contact None (Some e) self = (inr None, self).
Proof.
  intros Ht He. unfold find_contact. run.
  rewrite (truthy_Some e Ht). simpl. by rewrite decide_False.
Qed.

(** [remove_contact(phone=p)] with a phone that is not indexed: the lookup by
    phone finds nothing, and the lookup by email that follows is
    [find_contact(email=None)], which raises. *)
Lemma remove_contact_phone_miss (self : ContactManager) (p : string) :
  p ≠ "" → p ∉ _phone_set self →
  remove_contact (Some p) None self = (inl no_selector, self).
Proof.
  intros Ht Hp. unfold remove_contact.
  rewrite (truthy_Some p Ht). simpl. run.
  rewrite find_contact_phone_miss; [| by rewrite truthy_Some | done].
  by rewrite find_contact_no_selector.
Qed.

(** With an email that is given, a selector that matches nothing is a no-op. *)
Lemma remove_contact_email_miss (self : ContactManager) (e : string) :
  e ≠ "" → e ∉ _email_set self →
  remove_contact None (Some e) self = (inr tt, self).
Proof.
  intros Ht He. unfold remove_contact.
  rewrite (truthy_Some e Ht). simpl. run.
  by rewrite find_contact_email_miss.
Qed.

Lemma remove_contact_both_miss (self : ContactManager) (p e : string) :
  p ≠ "" → e ≠ "" → p ∉ _phone_set self → e ∉ _email_set self →
  remove_contact (Some p) (Some e) self = (inr tt, self).
Proof.
  intros Hn Ht Hp He. unfold remove_contact.
  rewrite (truthy_Some e Ht), andb_false_r. run.
  rewrite find_contact_phone_miss; [| by rewrite truthy_Some | done].
  by rewrite find_contact_email_miss.
Qed.

(** The lookup by phone inside [remove_contact] is [find_contact(phone=p)]
    without the email: with the empty string for [p] it raises, whatever the
    email is. *)
Lemma remove_contact_empty_phone (self : ContactManager) (e : string) :
  e ≠ "" → remove_contact (Some "") (Some e) self = (inl no_selector, self).
Proof.
  intros Ht. unfold remove_contact.
  rewrite (truthy_Some e Ht), andb_false_r. run.
  by rewrite find_contact_no_selector.
Qed.


End manager_facts.

(** ** The scenario *)

Lemma book_init :
  ContactManager__init__ (PL := str_paths) (JL := obj_json)
    store_fs [jake; ann] "store" = inr book.
Proof. vm_compute. reflexivity. Qed.

(** C1 fails on the code. In the book of the scenario, which the constructor
    returns, [remove_contact(phone="333333333")] names a phone that no
    contact has, and no email: the lookup by phone returns [None], and the
    call raises [ValueError] where the specification has it return as a
    no-op. The book is left as it was. *)
Theorem C1_remove_unknown_phone_raises :
  ContactManager__init__ (PL := str_paths) (JL := obj_json)
    store_fs [jake; ann] "store" = inr book ∧
  find_contact (Some "333333333") None book = (inr None, book) ∧
  remove_contact (Some "333333333") None book = (inl no_selector, book).
Proof.
  split; [exact book_init |]. split.
  - apply find_contact_phone_miss; compute_done.
  - apply remove_contact_phone_miss; compute_done.
Qed.

Lemma C4_add_contact_witness :
  add_contact (mkContact (Some "") (Some "") "ann@y.com" "111111111" None) book =
    (inl (DuplicatePhoneError "Phone 111111111 already exists."), book) ∧
  add_contact (mkContact (Some "") (Some "") "ann@y.com" "333333333" None) book =
    (inl (DuplicateEmailError "Email ann@y.com already exists."), book) ∧
  ∃ self',
    add_contact (mkContact (Some "mike") (Some "wazowski") "mike@maile.com" "333333333"
                   (Some "somewhere")) book = (inr tt, self') ∧
    contacts self' =
      [jake; ann;
       mkContact (Some "mike") (Some "wazowski") "mike@maile.com" "333333333"
         (Some "somewhere")] ∧
    _phone_set self' = {["333333333"]} ∪ _phone_set book ∧
    _email_set self' = {["mike@maile.com"]} ∪ _email_set book ∧
    store_path self' = store_path book.
Proof.
  split; [| split].
  - apply (proj1 (C4_add_contact book
                    (mkContact (Some "") (Some "") "ann@y.com" "111111111" None))).
    compute_done.
  - apply (proj1 (proj2 (C4_add_contact book
                    (mkContact (Some "") (Some "") "ann@y.com" "333333333" None))));
      compute_done.
  - apply (proj2 (proj2 (C4_add_contact book
                    (mkContact (Some "mike") (Some "wazowski") "mike@maile.com" "333333333"
                       (Some "somewhere")))));
      compute_done.
Defined.

Lemma C9_add_contact_atomic_witness :
  (DuplicatePhoneError "Phone 111111111 already exists." =
     DuplicatePhoneError__init__ (mkContact (Some "") (Some "") "ann@y.com" "111111111" None)
   ∨ DuplicatePhoneError "Phone 111111111 already exists." =
     DuplicateEmailError__init__ (mkContact (Some "") (Some "") "ann@y.com" "111111111" None)) ∧
  contacts book = contacts book ∧
  _phone_set book = _phone_set book ∧
  _email_set book = _email_set book ∧
  book = book.
Proof.
  apply (C9_add_contact_atomic book book
           (mkContact (Some "") (Some "") "ann@y.com" "111111111" None)).
  vm_compute. reflexivity.
Defined.


(** The three calls that lead from the book to [book3]. *)
Lemma book3_reached :
  (remove_contact (Some "222222222") None
     (edit_contact "222222222" [("email", "jake@x.com")]
        (edit_contact "111111111" [("phone", "")] book).2).2).2 = book3.
Proof. vm_compute. reflexivity. Qed.


(** ** The constructor of the collection *)

Lemma size_list_to_set_le (l : list string) :
  size (list_to_set l : gset string) ≤ length l.
Proof.
  induction l as [|x l IH].
  - done.
  - simpl. rewrite size_union_alt.
    rewrite size_singleton.
    assert (size (list_to_set l ∖ {[x]} : gset string)
            ≤ size (list_to_set l : gset string)).
    { apply subseteq_size, subseteq_difference_l. done. }
    lia.
Qed.

(** [len(l) == len(set(l))] says that [l] has no duplicates. *)
Lemma length_size_NoDup (l : list string) :
  length l = size (list_to_set l : gset string) ↔ NoDup l.
Proof.
  split; [| intros H; by rewrite size_list_to_set].
  induction l as [|x l IH]; simpl; intros H; [constructor |].
  pose proof (size_list_to_set_le l) as Hle.
  destruct (decide (x ∈ l)) as [Hx|Hx].
  - assert ({[x]} ∪ list_to_set l = (list_to_set l : gset string)) as E.
    { apply subseteq_union_1_L, singleton_subseteq_l.
      by apply elem_of_list_to_set. }
    rewrite E in H. lia.
  - rewrite size_union in H
      by (apply disjoint_singleton_l; by rewrite elem_of_list_to_set).
    rewrite size_singleton in H.
    constructor; [done |]. apply IH. lia.
Qed.

Section init_facts.
Context {PL : PathLib} {JL : JsonLib}.

Lemma init_dup_phone (fs : FS) (l : list Contact) (dir : string) :
  ¬ NoDup (phone <$> l) →
  ContactManager__init__ fs l dir =
    inl (ValueError "Duplicate phone numbers in contacts list.").
Proof.
  intros H. unfold ContactManager__init__. simpl.
  rewrite decide_True; [done |].
  intros E. apply H, length_size_NoDup. by rewrite length_fmap.
Qed.

Lemma init_dup_email (fs : FS) (l : list Contact) (dir : string) :
  NoDup (phone <$> l) → ¬ NoDup (email <$> l) →
  ContactManager__init__ fs l dir =
    inl (ValueError "Duplicate emails in contacts list.").
Proof.
  intros Hp H. unfold ContactManager__init__. simpl.
  rewrite decide_False.
  2:{ intros E. apply E. rewrite size_list_to_set by done.
      by rewrite length_fmap. }
  rewrite decide_True; [done |].
  intros E. apply H, length_size_NoDup. by rewrite length_fmap.
Qed.

Lemma init_unique (fs : FS) (l : list Contact) (dir : string) :
  NoDup (phone <$> l) → NoDup (email <$> l) →
  ContactManager__init__ fs l dir =
    if negb (Path_exists fs (Path_of_str dir)) then
      inl (ValueError ("Path does not exist: '" +:+ dir +:+ "'"))
    else if negb (Path_is_dir fs (Path_of_str dir)) then
      inl (ValueError "Path does not point to a directory.")
    else
      inr (mkContactManager _ l
             (Path_joinpath (Path_of_str dir) "contacts.json")
             (list_to_set (phone <$> l)) (list_to_set (email <$> l))).
Proof.
  intros Hp He. unfold ContactManager__init__. simpl.
  rewrite !decide_False; [done | |].
  - intros E. apply E. rewrite size_list_to_set by done.
    by rewrite length_fmap.
  - intros E. apply E. rewrite size_list_to_set by done.
    by rewrite length_fmap.
Qed.

(** C10. Whatever the file system and the directory named, the constructor
    raises the [ValueError] of duplicate phones for a list with a duplicate
    phone, and that of duplicate emails for a list with distinct phones and a
    duplicate email; the two errors of the directory are raised only for a
    list without duplicates. *)
Theorem C10_init_checks_list_first (fs : FS) (l : list Contact) (dir : string) :
  (¬ NoDup (phone <$> l) →
   ContactManager__init__ fs l dir =
     inl (ValueError "Duplicate phone numbers in contacts list.")) ∧
  (NoDup (phone <$> l) → ¬ NoDup (email <$> l) →
   ContactManager__init__ fs l dir =
     inl (ValueError "Duplicate emails in contacts list.")) ∧
  (ContactManager__init__ fs l dir =
     inl (ValueError ("Path does not exist: '" +:+ dir +:+ "'")) ∨
   ContactManager__init__ fs l dir =
     inl (ValueError "Path does not point to a directory.") →
   NoDup (phone <$> l) ∧ NoDup (email <$> l)).
Proof.
  split; [apply init_dup_phone |]. split; [apply init_dup_email |].
  intros H.
  destruct (decide (NoDup (phone <$> l))) as [Hp|Hp].
  2:{ rewrite init_dup_phone in H by done. by destruct H. }
  destruct (decide (NoDup (email <$> l))) as [He|He]; [done |].
  rewrite init_dup_email in H by done. by destruct H.
Qed.

End init_facts.

Lemma C10_init_checks_list_first_witness :
  ContactManager__init__ (PL := str_paths) (JL := obj_json) ∅
      [jake; mkContact (Some "") (Some "") "j@x.com" "111111111" None] "nowhere" =
    inl (ValueError "Duplicate phone numbers in contacts list.") ∧
  ContactManager__init__ (PL := str_paths) (JL := obj_json) ∅
      [jake; mkContact (Some "") (Some "") "jake@x.com" "333333333" None] "nowhere" =
    inl (ValueError "Duplicate emails in contacts list.") ∧
  NoDup (phone <$> [jake; ann]) ∧ NoDup (email <$> [jake; ann]).
Proof.
  split; [| split].
  - apply (proj1 (C10_init_checks_list_first (PL := str_paths)
                    (JL := obj_json) ∅
                    [jake; mkContact (Some "") (Some "") "j@x.com" "111111111" None]
                    "nowhere")).
    compute_done.
  - apply (proj1 (proj2 (C10_init_checks_list_first (PL := str_paths)
                    (JL := obj_json) ∅
                    [jake; mkContact (Some "") (Some "") "jake@x.com" "333333333" None]
                    "nowhere")));
      compute_done.
  - apply (proj2 (proj2 (C10_init_checks_list_first (PL := str_paths)
                    (JL := obj_json) ∅ [jake; ann] "nowhere"))).
    left. vm_compute. reflexivity.
Defined.

(** ** Editing breaks the invariant *)

Lemma book_inv : index_inv book ∧ unique_inv book.
Proof.
  split; [done |]. split; simpl; repeat constructor; compute_done.
Qed.

(** C2 fails on the code. The book of the scenario has the invariant. After
    [edit_contact("111111111", phone="222222222")] its two contacts share a
    phone; after [edit_contact("222222222", phone="333333333")] on top of
    that, the phone index is the one phone ["333333333"] while ann still has
    the phone ["222222222"]. *)
Theorem C2_edit_breaks_invariant :
  ContactManager__init__ (PL := str_paths) (JL := obj_json)
    store_fs [jake; ann] "store" = inr book ∧
  index_inv book ∧ unique_inv book ∧
  edit_contact "111111111" [("phone", "222222222")] book = (inr [], book1) ∧
  index_inv book1 ∧ ¬ unique_inv book1 ∧
  edit_contact "222222222" [("phone", "333333333")] book1 = (inr [], book2) ∧
  phone <$> contacts book2 = ["333333333"; "222222222"] ∧
  elements (_phone_set book2) = ["333333333"] ∧
  ¬ index_inv book2.
Proof.
  split; [exact book_init |].
  split; [apply book_inv |]. split; [apply book_inv |].
  split; [vm_compute; reflexivity |].
  split; [split; vm_compute; reflexivity |].
  split.
  { intros [H _]. simpl in H. apply NoDup_cons in H as [H _].
    apply H. by left. }
  split; [vm_compute; reflexivity |].
  split; [done |]. split; [vm_compute; reflexivity |].
  intros [H _]. apply (f_equal size) in H. vm_compute in H. discriminate.
Qed.

(** ** The round trip through the snapshot file *)

Lemma from_dicts_to_dict {UD : UnicodeData} (l : list Contact) :
  Forall valid_contact l → from_dicts (to_dict <$> l) = inr l.
Proof.
  induction 1 as [|c l Hc _ IH]; [done |].
  rewrite fmap_cons. cbn [from_dicts].
  by rewrite from_dict_to_dict, IH.
Qed.

Section file_facts.
Context {PL : PathLib} {JL : JsonLib} {UD : UnicodeData}.
Context {PLL : PathLibLaws PL} {JLL : JsonLibLaws JL}.

(** What the constructor returns, and what it has checked. *)
Lemma init_inr (fs : FS) (l : list Contact) (dir : string)
    (self : ContactManager) :
  ContactManager__init__ fs l dir = inr self →
  NoDup (phone <$> l) ∧ NoDup (email <$> l) ∧
  fs !! Path_str (Path_of_str dir) = Some Dir ∧
  self = mkContactManager _ l
           (Path_joinpath (Path_of_str dir) "contacts.json")
           (list_to_set (phone <$> l)) (list_to_set (email <$> l)).
Proof.
  intros H.
  destruct (decide (NoDup (phone <$> l))) as [Hp|Hp];
    [| by rewrite init_dup_phone in H].
  destruct (decide (NoDup (email <$> l))) as [He|He];
    [| by rewrite init_dup_email in H].
  rewrite init_unique in H by done.
  unfold Path_exists, Path_is_dir in H.
  destruct (fs !! Path_str (Path_of_str dir)) as [[|t]|]; simpl in H;
    try discriminate.
  by injection H as <-.
Qed.

(** The snapshot of a collection whose contacts are valid and distinct, in a
    directory that exists, is read back as the same collection. *)
Lemma to_file_from_file (fs : FS) (l : list Contact) (D : Path) :
  let self := mkContactManager _ l (Path_joinpath D "contacts.json")
                (list_to_set (phone <$> l)) (list_to_set (email <$> l)) in
  Forall valid_contact l →
  NoDup (phone <$> l) → NoDup (email <$> l) →
  fs !! Path_str D = Some Dir →
  fs !! Path_str (store_path self) ≠ Some Dir →
  to_file self fs =
    inr (<[Path_str (store_path self) := File (json_dump (to_json self))]> fs) ∧
  from_file
    (<[Path_str (store_path self) := File (json_dump (to_json self))]> fs)
    (store_path self) = inr self.
Proof.
  intros self Hv Hp He HD Hk. simpl in Hk.
  set (k := Path_str (Path_joinpath D "contacts.json")) in *.
  assert (k ≠ Path_str D) as Hne by (intros E; rewrite E in Hk; done).
  assert (Path_parent (Path_of_str k) = D) as Hpar.
  { unfold k. by rewrite Path_of_str_str, Path_parent_joinpath. }
  split.
  - unfold to_file, to_json, open_w. simplify_map_eq. simpl. fold k.
    rewrite Hpar, HD. by destruct (fs !! k) as [[|?]|].
  - unfold from_file, Path_exists, Path_is_file, open_r. simpl. fold k.
    rewrite lookup_insert_eq. simpl.
    rewrite Path_suffix_joinpath, bool_decide_eq_true_2 by done. simpl.
    rewrite json_load_dump. unfold to_json. simplify_map_eq. simpl.
    rewrite from_dicts_to_dict by done. fold k. rewrite Hpar.
    rewrite init_unique by done.
    unfold Path_exists, Path_is_dir.
    rewrite Path_of_str_str, lookup_insert_ne, HD by done. done.
Qed.


End file_facts.

Lemma has_slash_contacts (p : string) : has "/" (p +:+ "/contacts.json") = true.
Proof. induction p as [|c p IH]; simpl; [done |]. by rewrite IH, orb_true_r. Qed.

Lemma str_paths_laws : PathLibLaws str_paths.
Proof.
  split; simpl.
  - done.
  - intros p. induction p as [|c p IH]; [done |].
    simpl. simpl in IH. by rewrite has_slash_contacts, IH.
  - intros p. induction p as [|c p IH]; [done |].
    simpl. simpl in IH. by rewrite has_slash_contacts, orb_true_r, IH.
Qed.

Lemma obj_json_laws : JsonLibLaws obj_json.
Proof. by split. Qed.


(** ** The invariant across the other operations *)

Lemma NoDup_fmap_inj {A B} (f : A → B) (l : list A) (x y : A) :
  NoDup (f <$> l) → x ∈ l → y ∈ l → f x = f y → x = y.
Proof.
  induction l as [|z l IH]; intros Hnd Hx Hy E; [by apply elem_of_nil in Hx|].
  rewrite fmap_cons in Hnd. apply NoDup_cons in Hnd as [Hz Hnd].
  apply elem_of_cons in Hx as [->|Hx]; apply elem_of_cons in Hy as [->|Hy].
  - done.
  - destruct Hz. rewrite E. by apply list_elem_of_fmap_2.
  - destruct Hz. rewrite <- E. by apply list_elem_of_fmap_2.
  - by apply IH.
Qed.

Lemma filter_Forall_id {A} (P : A → Prop) `{∀ x, Decision (P x)}
    (l : list A) :
  Forall P l → filter P l = l.
Proof.
  induction 1 as [|x l Hx _ IH]; [done |].
  by rewrite filter_cons_True, IH.
Qed.

Section invariant_facts.
Context {PL : PathLib}.

Lemma add_contact_inv (self : ContactManager) (c : Contact) :
  index_inv self → unique_inv self →
  index_inv (add_contact c self).2 ∧ unique_inv (add_contact c self).2.
Proof.
  intros [Ip Ie] [Up Ue].
  destruct (decide (phone c ∈ _phone_set self)) as [Hp|Hp].
  { by rewrite add_contact_dup_phone. }
  destruct (decide (email c ∈ _email_set self)) as [He|He].
  { by rewrite add_contact_dup_email. }
  rewrite add_contact_fresh by done.
  unfold index_inv, unique_inv. simpl.
  rewrite !fmap_app, !list_to_set_app_L. simpl.
  rewrite !union_empty_r_L, <- Ip, <- Ie.
  rewrite Ip in Hp. rewrite Ie in He.
  rewrite elem_of_list_to_set in Hp, He.
  repeat split.
  - apply union_comm_L.
  - apply union_comm_L.
  - apply NoDup_app. split; [done |]. split; [| apply NoDup_singleton].
    intros x Hx ->%list_elem_of_singleton. done.
  - apply NoDup_app. split; [done |]. split; [| apply NoDup_singleton].
    intros x Hx ->%list_elem_of_singleton. done.
Qed.

(** In a list without two contacts of the same phone or email,
    [l.remove(c)] for an element [c] drops [c] and nothing else. *)
Lemma list_remove_unique (l : list Contact) (c : Contact) :
  NoDup (phone <$> l) → NoDup (email <$> l) → c ∈ l →
  list_remove c l = inr (filter (λ x, x ≠ c) l).
Proof.
  intros Hp He Hc. induction l as [|x l IH]; [by apply elem_of_nil in Hc |].
  simpl. unfold Contact__eq__.
  assert (∀ y, y ∈ x :: l → phone y = phone c ∨ email y = email c → y = c)
    as Huniq.
  { intros y Hy [E|E].
    - by apply (NoDup_fmap_inj phone (x :: l)).
    - by apply (NoDup_fmap_inj email (x :: l)). }
  rewrite !fmap_cons in Hp, He.
  apply NoDup_cons in Hp as [Hxp Hp]. apply NoDup_cons in He as [Hxe He].
  destruct (decide (x = c)) as [->|Hne].
  - rewrite bool_decide_eq_true_2 by done. simpl.
    rewrite filter_cons_False by (intros H; by apply H).
    f_equal. symmetry. apply filter_Forall_id.
    apply Forall_forall. intros y Hy ->.
    apply Hxp. by apply list_elem_of_fmap_2.
  - rewrite !bool_decide_eq_false_2.
    2:{ intros E. apply Hne, Huniq; [left | by right]. }
    2:{ intros E. apply Hne, Huniq; [left | by left]. }
    simpl. apply elem_of_cons in Hc as [->|Hc]; [done |].
    rewrite IH by done. by rewrite filter_cons_True.
Qed.

Lemma filter_ne_phones (l : list Contact) (c : Contact) :
  NoDup (phone <$> l) → c ∈ l →
  (list_to_set (phone <$> filter (λ x, x ≠ c) l) : gset string) =
  list_to_set (phone <$> l) ∖ {[phone c]}.
Proof.
  intros Hp Hc. apply set_eq. intros p.
  rewrite elem_of_difference, !elem_of_list_to_set, !list_elem_of_fmap,
    elem_of_singleton.
  split.
  - intros (x & -> & [Hx Hin]%list_elem_of_filter). split; [by exists x |].
    intros E. apply Hx. by apply (NoDup_fmap_inj phone l).
  - intros [(x & -> & Hin) Hne]. exists x. split; [done |].
    apply list_elem_of_filter. split; [| done]. by intros ->.
Qed.

Lemma filter_ne_emails (l : list Contact) (c : Contact) :
  NoDup (email <$> l) → c ∈ l →
  (list_to_set (email <$> filter (λ x, x ≠ c) l) : gset string) =
  list_to_set (email <$> l) ∖ {[email c]}.
Proof.
  intros Hp Hc. apply set_eq. intros p.
  rewrite elem_of_difference, !elem_of_list_to_set, !list_elem_of_fmap,
    elem_of_singleton.
  split.
  - intros (x & -> & [Hx Hin]%list_elem_of_filter). split; [by exists x |].
    intros E. apply Hx. by apply (NoDup_fmap_inj email l).
  - intros [(x & -> & Hin) Hne]. exists x. split; [done |].
    apply list_elem_of_filter. split; [| done]. by intros ->.
Qed.

Lemma NoDup_fmap_filter {B} (f : Contact → B) (P : Contact → Prop)
    `{∀ x, Decision (P x)} (l : list Contact) :
  NoDup (f <$> l) → NoDup (f <$> filter P l).
Proof.
  induction l as [|x l IH]; [done |].
  rewrite fmap_cons. intros [Hx Hl]%NoDup_cons.
  destruct (decide (P x)).
  - rewrite filter_cons_True by done. rewrite fmap_cons.
    apply NoDup_cons. split; [| by apply IH].
    intros (y & E & [_ Hy]%list_elem_of_filter)%list_elem_of_fmap.
    apply Hx. rewrite E. by apply list_elem_of_fmap_2.
  - rewrite filter_cons_False by done. by apply IH.
Qed.

(** [__remove_contact(c)] for a contact [c] of the collection. *)
Lemma __remove_contact_inv (self : ContactManager) (c : Contact) :
  index_inv self → unique_inv self → c ∈ contacts self →
  (__remove_contact c self).1 = inr tt ∧
  contacts (__remove_contact c self).2 = filter (λ x, x ≠ c) (contacts self) ∧
  index_inv (__remove_contact c self).2 ∧
  unique_inv (__remove_contact c self).2.
Proof.
  intros [Ip Ie] [Up Ue] Hc.
  unfold __remove_contact, set_remove. run.
  rewrite decide_True.
  2:{ rewrite Ip, elem_of_list_to_set. by apply list_elem_of_fmap_2. }
  simpl. rewrite decide_True.
  2:{ rewrite Ie, elem_of_list_to_set. by apply list_elem_of_fmap_2. }
  simpl. rewrite list_remove_unique by done. simpl.
  unfold index_inv, unique_inv. simpl.
  rewrite filter_ne_phones, filter_ne_emails, <- Ip, <- Ie by done.
  repeat split; by apply NoDup_fmap_filter.
Qed.

Lemma list_find_elem_of {A} (P : A → Prop) `{∀ x, Decision (P x)}
    (l : list A) (i : nat) (x : A) :
  list_find P l = Some (i, x) → x ∈ l ∧ P x.
Proof.
  intros (Hi & HP & _)%list_find_Some. split; [| done].
  by apply list_elem_of_lookup_2 with i.
Qed.

(** What [find_contact] returns is a contact of the collection. *)
Lemma find_contact_elem_of (self : ContactManager) (p e : option string)
    (c : Contact) :
  (find_contact p e self).1 = inr (Some c) → c ∈ contacts self.
Proof.
  unfold find_contact, __find_contact_phone, __find_contact_email. run.
  destruct (negb (truthy p) && negb (truthy e)); [done |].
  destruct p as [p|].
  - destruct (decide (p ∈ _phone_set self)); [| done].
    destruct (list_find _ _) as [[i x]|] eqn:E; [| done].
    intros [= <-]. by apply list_find_elem_of in E as [? _].
  - destruct e as [e|]; [| done].
    destruct (decide (e ∈ _email_set self)); [| done].
    destruct (list_find _ _) as [[i x]|] eqn:E; [| done].
    intros [= <-]. by apply list_find_elem_of in E as [? _].
Qed.

Lemma hoare_bind {A B} (P : ContactManager → Prop) (m : M A) (k : A → M B)
    (Q : exn + A → ContactManager → Prop)
    (R : exn + B → ContactManager → Prop) :
  hoare P m Q →
  (∀ a, hoare (Q (inr a)) (k a) R) →
  (∀ e self, Q (inl e) self → R (inl e) self) →
  hoare P (bind m k) R.
Proof.
  intros Hm Hk He self HP. specialize (Hm self HP). unfold bind.
  destruct (m self) as [[e|a] self']; simpl in *; [by apply He |].
  by apply Hk.
Qed.

Lemma hoare_ret {A} (P : ContactManager → Prop) (a : A)
    (Q : exn + A → ContactManager → Prop) :
  (∀ self, P self → Q (inr a) self) → hoare P (ret a) Q.
Proof. intros H self HP. by apply H. Qed.

Lemma hoare_find_contact (p e : option string) :
  hoare inv (find_contact p e)
    (λ r self, inv self ∧ ∀ c, r = inr (Some c) → c ∈ contacts self).
Proof.
  intros self I. rewrite find_contact_state. split; [done |].
  apply find_contact_elem_of.
Qed.

Lemma hoare___remove_contact (c : Contact) :
  hoare (λ self, inv self ∧ c ∈ contacts self) (__remove_contact c)
    (λ r self, r = inr tt ∧ inv self).
Proof.
  intros self [[I U] Hc].
  by destruct (__remove_contact_inv self c I U Hc) as (? & _ & ? & ?).
Qed.

(** [remove_contact] keeps the invariant, whether it removes a contact,
    removes nothing, or raises. *)
Lemma remove_contact_inv (p e : option string) :
  hoare inv (remove_contact p e) (λ _ self, inv self).
Proof.
  unfold remove_contact.
  destruct (negb (truthy p) && negb (truthy e)); [by intros self I |].
  unfold mbind, M_bind.
  apply hoare_bind with (Q := λ _ self, inv self); [| | done].
  - destruct p as [p|]; [| by apply hoare_ret].
    eapply hoare_bind; [apply hoare_find_contact | | by intros ? ? [? _]].
    intros [c|]; [| apply hoare_ret; by intros ? [? _]].
    eapply hoare_bind with (Q := λ _ self, inv self).
    + intros self [I Hc]. apply hoare___remove_contact. split; [done |].
      by apply Hc.
    + intros _. by apply hoare_ret.
    + done.
  - intros [|]; [by apply hoare_ret |].
    eapply hoare_bind; [apply hoare_find_contact | | by intros ? ? [? _]].
    intros [c|]; [| apply hoare_ret; by intros ? [? _]].
    intros self [I Hc]. apply hoare___remove_contact. split; [done |].
    by apply Hc.
Qed.

Lemma add_contact_hoare (c : Contact) :
  hoare inv (add_contact c) (λ _ self, inv self).
Proof. intros self [I U]. by apply add_contact_inv. Qed.

End invariant_facts.

Section init_invariant.
Context {PL : PathLib} {JL : JsonLib}.

(** A collection the constructor returns has the invariant. *)
Lemma init_inv (fs : FS) (l : list Contact) (dir : string)
    (self : ContactManager) :
  ContactManager__init__ fs l dir = inr self →
  index_inv self ∧ unique_inv self.
Proof. by intros (Hp & He & _ & ->)%init_inr. Qed.

End init_invariant.

(** * More of the code *)

(** ** Contact: decoding and validation *)

Lemma shape_append {UD : UnicodeData} (e p r1 r2 : string) :
  (email_shape e → email_shape (e +:+ r1)) ∧
  (phone_shape p → phone_shape (p +:+ r2)).
Proof.
  split.
  - intros (a & b & rest & -> & Ha & Hb). exists a, b, (rest +:+ r1).
    split; [| done]. by rewrite !append_assoc.
  - intros (ds & rest & -> & Hd). exists ds, (rest +:+ r2).
    split; [| done]. by rewrite append_assoc.
Qed.

(** X1. The two checks of the constructor read a prefix only: when
    [Contact(first, last, e, p, addr)] is accepted, so is the contact with
    any text appended to the email and any text appended to the phone.
    Neither field has an upper bound, and what follows the nine digits or
    the dot is not looked at. *)
Theorem X1_validation_reads_prefix {UD : UnicodeData}
    (first last : option string) (e p r1 r2 : string) (addr : option string)
    (c : Contact) :
  Contact__init__ first last e p addr = inr c →
  Contact__init__ first last (e +:+ r1) (p +:+ r2) addr =
    inr (mkContact first last (e +:+ r1) (p +:+ r2) addr).
Proof.
  intros [-> [He Hp]]%Contact__init___valid. simpl in *.
  apply Contact__init___inr; by apply shape_append.
Qed.

Lemma X1_validation_reads_prefix_witness :
  Contact__init__ (Some "jake") (Some "smith") ("jake@x.com" +:+ " and more")
      ("111111111" +:+ "-ext.5") None =
    inr (mkContact (Some "jake") (Some "smith") ("jake@x.com" +:+ " and more")
           ("111111111" +:+ "-ext.5") None).
Proof.
  apply (X1_validation_reads_prefix (Some "jake") (Some "smith") "jake@x.com" "111111111"
           " and more" "-ext.5" None jake).
  vm_compute. reflexivity.
Defined.

(** X2. The email is checked first. The constructor raises the [ValueError]
    that names the email exactly when the email has not the shape, whatever
    the phone; it raises the one that names the phone exactly when the email
    has the shape and the phone does not start with nine decimal digits. *)
Theorem X2_constructor_errors {UD : UnicodeData} (first last : option string)
    (e p : string) (addr : option string) :
  (Contact__init__ first last e p addr =
     inl (ValueError ("Email " +:+ e +:+ " is invalid."))
   ↔ ¬ email_shape e) ∧
  (Contact__init__ first last e p addr =
     inl (ValueError ("Phone " +:+ p +:+ " is invalid."))
   ↔ email_shape e ∧ ¬ phone_shape p).
Proof.
  rewrite <- email_match_spec, <- phone_match_spec. unfold Contact__init__.
  destruct (re.match_ EMAIL_RE e); simpl.
  - destruct (re.match_ PHONE_RE p); simpl.
    + split; (split; [discriminate | ]); [done | by intros [_ ?]].
    + split; [split; [discriminate | done] | done].
  - split; [done |]. split; [discriminate | by intros [? _]].
Qed.

Lemma X2_constructor_errors_witness :
  Contact__init__ (Some "") (Some "") "asdf" "12" None =
    inl (ValueError "Email asdf is invalid.") ∧
  Contact__init__ (Some "") (Some "") "a@b.c" "12345678x" None =
    inl (ValueError "Phone 12345678x is invalid.").
Proof.
  split.
  - apply (proj1 (X2_constructor_errors (Some "") (Some "") "asdf" "12" None)).
    intros H%email_match_spec. vm_compute in H. discriminate.
  - apply (proj2 (X2_constructor_errors (Some "") (Some "") "a@b.c"
                    "12345678x" None)).
    split.
    + by exists "a", "b", "c".
    + intros H%phone_match_spec. vm_compute in H. discriminate.
Defined.

Lemma not_elem_of_ATTR_SET (k : string) :
  k ≠ "first_name" → k ≠ "last_name" → k ≠ "email" → k ≠ "phone" →
  k ≠ "address" → k ∉ ATTR_SET.
Proof.
  intros H1 H2 H3 H4 H5. unfold ATTR_SET, ATTR_LIST.
  rewrite elem_of_list_to_set, !elem_of_cons, elem_of_nil.
  unfold FIRST_NAME_ATTR, LAST_NAME_ATTR, EMAIL_ATTR, PHONE_ATTR, ADDR_ATTR.
  intros [?|[?|[?|[?|[?|[]]]]]]; done.
Qed.

(** What [from_dict] has checked when it returns. *)
Lemma from_dict_inr {UD : UnicodeData} (d : gmap string (option string))
    (c : Contact) :
  from_dict d = inr c → to_dict c = d ∧ valid_contact c ∧ dom d = ATTR_SET.
Proof.
  unfold from_dict.
  destruct (decide (ATTR_SET ≠ dom d)) as [|Hd%dec_stable]; [done |].
  unfold FIRST_NAME_ATTR, LAST_NAME_ATTR, EMAIL_ATTR, PHONE_ATTR, ADDR_ATTR.
  destruct (d !! "first_name") as [f|] eqn:Ef; [| done].
  destruct (d !! "last_name") as [l|] eqn:El; [| done].
  destruct (d !! "email") as [[e|]|] eqn:Ee; try done.
  2:{ by destruct (d !! "phone"), (d !! "address"). }
  destruct (d !! "phone") as [[p|]|] eqn:Ep; try done;
    destruct (d !! "address") as [a|] eqn:Ea; try done; simpl.
  2:{ by destruct (negb _). }
  intros [-> Hv]%Contact__init___valid. split; [| done].
  apply map_eq. intros k. unfold to_dict. simpl.
  destruct (decide (k = "first_name")) as [->|?]; [by simplify_map_eq |].
  destruct (decide (k = "last_name")) as [->|?]; [by simplify_map_eq |].
  destruct (decide (k = "email")) as [->|?]; [by simplify_map_eq |].
  destruct (decide (k = "phone")) as [->|?]; [by simplify_map_eq |].
  destruct (decide (k = "address")) as [->|?]; [by simplify_map_eq |].
  simplify_map_eq. symmetry. apply not_elem_of_dom. rewrite <- Hd.
  by apply not_elem_of_ATTR_SET.
Qed.

(** X3. What [Contact.from_dict] returns encodes back to the mapping it was
    given: when [from_dict(d)] returns [c], [c.to_dict()] is [d], and [c] is
    a valid contact. So a mapping decodes only if it has exactly the five
    keys, and decoding loses nothing: a name or an address that is [None]
    in the mapping is [None] in the contact. *)
Theorem X3_from_dict_then_to_dict {UD : UnicodeData}
    (d : gmap string (option string)) (c : Contact) :
  from_dict d = inr c → to_dict c = d ∧ valid_contact c ∧ dom d = ATTR_SET.
Proof. apply from_dict_inr. Qed.

Lemma X3_from_dict_then_to_dict_witness :
  to_dict (mkContact None (Some "smith") "jake@x.com" "111111111" None) =
    <["first_name" := None]> (to_dict jake) ∧
  valid_contact (mkContact None (Some "smith") "jake@x.com" "111111111" None) ∧
  dom (<["first_name" := None]> (to_dict jake)) = ATTR_SET.
Proof.
  apply (X3_from_dict_then_to_dict (<["first_name" := None]> (to_dict jake))
           (mkContact None (Some "smith") "jake@x.com" "111111111" None)).
  vm_compute. reflexivity.
Defined.

(** X4. [Contact.from_dict] raises its [ValueError] for a mapping that lacks
    one of the five keys, and for a mapping with a key that is none of the
    five, before it looks at any value. *)
Theorem X4_from_dict_bad_keys {UD : UnicodeData}
    (d : gmap string (option string)) (k : string) :
  (k ∈ ATTR_SET → d !! k = None →
   from_dict d = inl (ValueError "Bad argument names passed to the constructor.")) ∧
  (k ∉ ATTR_SET → is_Some (d !! k) →
   from_dict d = inl (ValueError "Bad argument names passed to the constructor.")).
Proof.
  unfold from_dict. split.
  - intros Hk Hn. rewrite decide_True; [done |].
    intros E. rewrite E in Hk. by apply not_elem_of_dom in Hn.
  - intros Hk Hs. rewrite decide_True; [done |].
    intros E. apply Hk. rewrite E. by apply elem_of_dom.
Qed.

Lemma X4_from_dict_bad_keys_witness :
  from_dict (delete "address" (to_dict jake)) =
    inl (ValueError "Bad argument names passed to the constructor.") ∧
  from_dict (<["nick" := Some "jj"]> (to_dict jake)) =
    inl (ValueError "Bad argument names passed to the constructor.").
Proof.
  split.
  - apply (proj1 (X4_from_dict_bad_keys (delete "address" (to_dict jake))
                    "address")); compute_done.
  - apply (proj2 (X4_from_dict_bad_keys (<["nick" := Some "jj"]> (to_dict jake))
                    "nick")); [compute_done |].
    by rewrite lookup_insert_eq.
Defined.

(** ** ContactManager: lookup *)

Section lookup_facts.
Context {PL : PathLib}.

Lemma list_find_first {A} (P : A → Prop) `{∀ x, Decision (P x)}
    (l : list A) :
  (∃ i x, list_find P l = Some (i, x) ∧ l !! i = Some x ∧ P x ∧
          ∀ j y, l !! j = Some y → j < i → ¬ P y) ∨
  (list_find P l = None ∧ ∀ x, x ∈ l → ¬ P x).
Proof.
  destruct (list_find P l) as [[i x]|] eqn:E.
  - left. exists i, x. apply list_find_Some in E as (? & ? & ?). done.
  - right. split; [done |]. apply list_find_None in E.
    by apply Forall_forall.
Qed.

Lemma find_contact_phone_eq (self : ContactManager) (p : string)
    (e : option string) :
  _phone_set self = list_to_set (phone <$> contacts self) → p ≠ "" →
  find_contact (Some p) e self =
    (inr (snd <$> list_find (λ x, phone x = p) (contacts self)), self).
Proof.
  intros Ip Hp. unfold find_contact, __find_contact_phone.
  rewrite (truthy_Some p Hp). simpl. run.
  destruct (list_find_first (λ x, phone x = p) (contacts self))
    as [(i & c & E & Hi & Hc & _) | [E Hn]]; rewrite E; simpl.
  - rewrite decide_True; [simpl; by rewrite E |].
    rewrite Ip, elem_of_list_to_set, list_elem_of_fmap. exists c.
    split; [done |]. by apply list_elem_of_lookup_2 with i.
  - rewrite decide_False; [done |].
    rewrite Ip, elem_of_list_to_set, list_elem_of_fmap.
    intros (c & Hc & Hin). by apply (Hn c).
Qed.

Lemma find_contact_email_eq (self : ContactManager) (e : string) :
  _email_set self = list_to_set (email <$> contacts self) → e ≠ "" →
  find_contact None (Some e) self =
    (inr (snd <$> list_find (λ x, email x = e) (contacts self)), self).
Proof.
  intros Ie He. unfold find_contact, __find_contact_email.
  rewrite (truthy_Some e He). simpl. run.
  destruct (list_find_first (λ x, email x = e) (contacts self))
    as [(i & c & E & Hi & Hc & _) | [E Hn]]; rewrite E; simpl.
  - rewrite decide_True; [simpl; by rewrite E |].
    rewrite Ie, elem_of_list_to_set, list_elem_of_fmap. exists c.
    split; [done |]. by apply list_elem_of_lookup_2 with i.
  - rewrite decide_False; [done |].
    rewrite Ie, elem_of_list_to_set, list_elem_of_fmap.
    intros (c & Hc & Hin). by apply (Hn c).
Qed.

(** X5. In a collection whose phone index is the set of the phones of its
    contacts, [find_contact(phone=p, email=e)] with a non-empty [p] returns,
    whatever [e] is, the first contact of the list whose phone is [p], and
    [None] when no contact has that phone; it raises nothing and changes
    nothing. *)
Theorem X5_find_by_phone (self : ContactManager) (p : string)
    (e : option string) :
  _phone_set self = list_to_set (phone <$> contacts self) → p ≠ "" →
  (∃ i c, find_contact (Some p) e self = (inr (Some c), self) ∧
          contacts self !! i = Some c ∧ phone c = p ∧
          ∀ j y, contacts self !! j = Some y → j < i → phone y ≠ p) ∨
  (find_contact (Some p) e self = (inr None, self) ∧
   ∀ c, c ∈ contacts self → phone c ≠ p).
Proof.
  intros Ip Hp. rewrite find_contact_phone_eq by done.
  destruct (list_find_first (λ x, phone x = p) (contacts self))
    as [(i & c & E & Hi & Hc & Hfirst) | [E Hn]]; rewrite E; simpl.
  - left. by exists i, c.
  - by right.
Qed.

(** X6. In a collection whose email index is the set of the emails of its
    contacts, [find_contact(email=e)] with a non-empty [e] and no phone
    returns the first contact of the list whose email is [e], and [None]
    when no contact has that email; it raises nothing and changes nothing. *)
Theorem X6_find_by_email (self : ContactManager) (e : string) :
  _email_set self = list_to_set (email <$> contacts self) → e ≠ "" →
  (∃ i c, find_contact None (Some e) self = (inr (Some c), self) ∧
          contacts self !! i = Some c ∧ email c = e ∧
          ∀ j y, contacts self !! j = Some y → j < i → email y ≠ e) ∨
  (find_contact None (Some e) self = (inr None, self) ∧
   ∀ c, c ∈ contacts self → email c ≠ e).
Proof.
  intros Ie He. rewrite find_contact_email_eq by done.
  destruct (list_find_first (λ x, email x = e) (contacts self))
    as [(i & c & E & Hi & Hc & Hfirst) | [E Hn]]; rewrite E; simpl.
  - left. by exists i, c.
  - by right.
Qed.

Lemma list_find_snoc_fresh {A} (P : A → Prop) `{∀ x, Decision (P x)}
    (l : list A) (x : A) :
  (∀ y, y ∈ l → ¬ P y) → P x → list_find P (l ++ [x]) = Some (length l, x).
Proof.
  intros Hl Hx. apply list_find_Some. split; [| split; [done |]].
  - by rewrite lookup_app_r, Nat.sub_diag.
  - intros j y Hj Hlt. rewrite lookup_app_l in Hj by done.
    apply Hl. by apply list_elem_of_lookup_2 with j.
Qed.

(** X7. After [add_contact(c)] has added a contact with a non-empty phone and
    a non-empty email to a collection whose index sets are the phones and the
    emails of its contacts, [find_contact(phone=c.phone)] and
    [find_contact(email=c.email)] both return [c]. *)
Theorem X7_add_then_find (self : ContactManager) (c : Contact) :
  index_inv self → phone c ≠ "" → email c ≠ "" →
  (add_contact c self).1 = inr tt →
  find_contact (Some (phone c)) None (add_contact c self).2 =
    (inr (Some c), (add_contact c self).2) ∧
  find_contact None (Some (email c)) (add_contact c self).2 =
    (inr (Some c), (add_contact c self).2).
Proof.
  intros [Ip Ie] Hp He Hadd.
  destruct (decide (phone c ∈ _phone_set self)) as [Hps|Hps].
  { by rewrite add_contact_dup_phone in Hadd. }
  destruct (decide (email c ∈ _email_set self)) as [Hes|Hes].
  { by rewrite add_contact_dup_email in Hadd. }
  rewrite add_contact_fresh by done.
  rewrite Ip, elem_of_list_to_set, list_elem_of_fmap in Hps.
  rewrite Ie, elem_of_list_to_set, list_elem_of_fmap in Hes.
  split.
  - rewrite find_contact_phone_eq; [| | done].
    + simpl. rewrite list_find_snoc_fresh; [done | | done].
      intros y Hy E. apply Hps. by exists y.
    + simpl. rewrite Ip, fmap_app, list_to_set_app_L. simpl.
      rewrite union_empty_r_L. apply union_comm_L.
  - rewrite find_contact_email_eq; [| | done].
    + simpl. rewrite list_find_snoc_fresh; [done | | done].
      intros y Hy E. apply Hes. by exists y.
    + simpl. rewrite Ie, fmap_app, list_to_set_app_L. simpl.
      rewrite union_empty_r_L. apply union_comm_L.
Qed.

End lookup_facts.

Lemma X5_find_by_phone_witness :
  (∃ i c, find_contact (Some "222222222") (Some "jake@x.com") book =
            (inr (Some c), book) ∧
          contacts book !! i = Some c ∧ phone c = "222222222" ∧
          ∀ j y, contacts book !! j = Some y → j < i → phone y ≠ "222222222") ∨
  (find_contact (Some "222222222") (Some "jake@x.com") book = (inr None, book) ∧
   ∀ c, c ∈ contacts book → phone c ≠ "222222222").
Proof.
  apply (X5_find_by_phone book "222222222" (Some "jake@x.com")); done.
Defined.

Lemma X6_find_by_email_witness :
  (∃ i c, find_contact None (Some "ann@y.com") book = (inr (Some c), book) ∧
          contacts book !! i = Some c ∧ email c = "ann@y.com" ∧
          ∀ j y, contacts book !! j = Some y → j < i → email y ≠ "ann@y.com") ∨
  (find_contact None (Some "ann@y.com") book = (inr None, book) ∧
   ∀ c, c ∈ contacts book → email c ≠ "ann@y.com").
Proof.
  apply (X6_find_by_email book "ann@y.com"); done.
Defined.

Lemma X7_add_then_find_witness :
  find_contact (Some "333333333") None
    (add_contact (mkContact (Some "mike") (Some "w") "mike@m.com" "333333333" None) book).2 =
    (inr (Some (mkContact (Some "mike") (Some "w") "mike@m.com" "333333333" None)),
     (add_contact (mkContact (Some "mike") (Some "w") "mike@m.com" "333333333" None) book).2) ∧
  find_contact None (Some "mike@m.com")
    (add_contact (mkContact (Some "mike") (Some "w") "mike@m.com" "333333333" None) book).2 =
    (inr (Some (mkContact (Some "mike") (Some "w") "mike@m.com" "333333333" None)),
     (add_contact (mkContact (Some "mike") (Some "w") "mike@m.com" "333333333" None) book).2).
Proof.
  apply (X7_add_then_find book
           (mkContact (Some "mike") (Some "w") "mike@m.com" "333333333" None));
    [apply book_inv | done | done | vm_compute; reflexivity].
Defined.

(** ** ContactManager: removal *)

Section removal_facts.
Context {PL : PathLib}.

Lemma __remove_contact_eq (self : ContactManager) (c : Contact) :
  inv self → c ∈ contacts self →
  __remove_contact c self =
    (inr tt,
     mkContactManager _ (filter (λ x, x ≠ c) (contacts self))
       (store_path self) (_phone_set self ∖ {[phone c]})
       (_email_set self ∖ {[email c]})).
Proof.
  intros [[Ip Ie] [Up Ue]] Hc.
  unfold __remove_contact, set_remove. run.
  rewrite decide_True.
  2:{ rewrite Ip, elem_of_list_to_set. by apply list_elem_of_fmap_2. }
  simpl. rewrite decide_True.
  2:{ rewrite Ie, elem_of_list_to_set. by apply list_elem_of_fmap_2. }
  simpl. by rewrite list_remove_unique.
Qed.

Lemma inv_after_remove (self : ContactManager) (c : Contact) :
  inv self → c ∈ contacts self →
  inv (mkContactManager _ (filter (λ x, x ≠ c) (contacts self))
         (store_path self) (_phone_set self ∖ {[phone c]})
         (_email_set self ∖ {[email c]})).
Proof.
  intros I Hc. destruct (__remove_contact_inv self c) as (_ & _ & I' & U');
    [apply I | apply I | done |].
  rewrite __remove_contact_eq in I', U' by done. done.
Qed.

Lemma remove_contact_by_phone (self : ContactManager) (c : Contact)
    (e : option string) :
  inv self → c ∈ contacts self → phone c ≠ "" →
  remove_contact (Some (phone c)) e self =
    (inr tt,
     mkContactManager _ (filter (λ x, x ≠ c) (contacts self))
       (store_path self) (_phone_set self ∖ {[phone c]})
       (_email_set self ∖ {[email c]})).
Proof.
  intros I Hc Hp. unfold remove_contact.
  rewrite (truthy_Some _ Hp). simpl. unfold mbind, M_bind, bind at 1 2.
  rewrite find_contact_phone_eq; [| apply I | done].
  destruct (list_find_first (λ x, phone x = phone c) (contacts self))
    as [(i & c' & E & Hi & Hc' & _) | [_ Hn]]; [| by destruct (Hn c)].
  rewrite E. simpl.
  assert (c' = c) as ->.
  { apply (NoDup_fmap_inj phone (contacts self)); [apply I | | done | done].
    by apply list_elem_of_lookup_2 with i. }
  unfold bind. by rewrite __remove_contact_eq.
Qed.

Lemma remove_contact_by_email (self : ContactManager) (c : Contact) :
  inv self → c ∈ contacts self → email c ≠ "" →
  remove_contact None (Some (email c)) self =
    (inr tt,
     mkContactManager _ (filter (λ x, x ≠ c) (contacts self))
       (store_path self) (_phone_set self ∖ {[phone c]})
       (_email_set self ∖ {[email c]})).
Proof.
  intros I Hc He. unfold remove_contact.
  rewrite (truthy_Some _ He). simpl. unfold mbind, M_bind, bind, ret.
  rewrite find_contact_email_eq; [| apply I | done].
  destruct (list_find_first (λ x, email x = email c) (contacts self))
    as [(i & c' & E & Hi & Hc' & _) | [_ Hn]]; [| by destruct (Hn c)].
  rewrite E. simpl.
  assert (c' = c) as ->.
  { apply (NoDup_fmap_inj email (contacts self)); [apply I | | done | done].
    by apply list_elem_of_lookup_2 with i. }
  by rewrite __remove_contact_eq.
Qed.

(** X8. In a collection with the invariant, [remove_contact(phone=p)] for the
    non-empty phone [p] of a stored contact [c] returns normally, whatever
    email is passed along; afterwards [c] is no contact of the collection,
    its phone and its email are in neither index, the other contacts are
    there in their order, the invariant holds, and
    [find_contact(phone=p)] returns [None]. *)
Theorem X8_remove_by_phone (self : ContactManager) (c : Contact)
    (e : option string) :
  inv self → c ∈ contacts self → phone c ≠ "" →
  ∃ self',
    remove_contact (Some (phone c)) e self = (inr tt, self') ∧
    contacts self' = filter (λ x, x ≠ c) (contacts self) ∧
    (c ∉ contacts self') ∧
    (phone c ∉ _phone_set self') ∧ (email c ∉ _email_set self') ∧
    inv self' ∧
    find_contact (Some (phone c)) None self' = (inr None, self').
Proof.
  intros I Hc Hp. eexists. split; [by apply remove_contact_by_phone |].
  simpl. split; [done |].
  split; [rewrite list_elem_of_filter; by intros [? _] |].
  split; [rewrite elem_of_difference, elem_of_singleton; by intros [_ ?] |].
  split; [rewrite elem_of_difference, elem_of_singleton; by intros [_ ?] |].
  split; [by apply inv_after_remove |].
  apply find_contact_phone_miss; [by rewrite truthy_Some |]. simpl.
  rewrite elem_of_difference, elem_of_singleton. by intros [_ ?].
Qed.

(** X9. [remove_contact(phone=p, email=e)] with a non-empty phone [p] that is
    not in the phone index does what [remove_contact(email=e)] does, for
    every [e], given or not: it removes the contact with the email [e] when
    there is one, and raises the [ValueError] of a missing selector when [e]
    is not given or empty. *)
Theorem X9_remove_falls_through (self : ContactManager) (p : string)
    (e : option string) :
  p ≠ "" → p ∉ _phone_set self →
  remove_contact (Some p) e self = remove_contact None e self.
Proof.
  intros Hp Hn. unfold remove_contact.
  rewrite (truthy_Some p Hp). simpl. unfold mbind, M_bind, bind at 1 2.
  rewrite find_contact_phone_miss; [| by rewrite truthy_Some | done].
  simpl. destruct (truthy e) eqn:He; simpl; [done |].
  unfold bind. by rewrite find_contact_no_selector.
Qed.

(** X10. In a collection with the invariant, [remove_contact(email=e)] for the
    non-empty email [e] of a stored contact [c] returns normally; afterwards
    [c] is no contact of the collection, its phone and its email are in
    neither index, the other contacts are there in their order, the
    invariant holds, and [find_contact(email=e)] returns [None]. *)
Theorem X10_remove_by_email (self : ContactManager) (c : Contact) :
  inv self → c ∈ contacts self → email c ≠ "" →
  ∃ self',
    remove_contact None (Some (email c)) self = (inr tt, self') ∧
    contacts self' = filter (λ x, x ≠ c) (contacts self) ∧
    (c ∉ contacts self') ∧
    (phone c ∉ _phone_set self') ∧ (email c ∉ _email_set self') ∧
    inv self' ∧
    find_contact None (Some (email c)) self' = (inr None, self').
Proof.
  intros I Hc He. eexists. split; [by apply remove_contact_by_email |].
  simpl. split; [done |].
  split; [rewrite list_elem_of_filter; by intros [? _] |].
  split; [rewrite elem_of_difference, elem_of_singleton; by intros [_ ?] |].
  split; [rewrite elem_of_difference, elem_of_singleton; by intros [_ ?] |].
  split; [by apply inv_after_remove |].
  apply find_contact_email_miss; [done |]. simpl.
  rewrite elem_of_difference, elem_of_singleton. by intros [_ ?].
Qed.

(** X11. Removal undoes addition: in a collection with the invariant, after
    [add_contact(c)] has added a contact with a non-empty phone,
    [remove_contact(phone=c.phone)] returns normally and leaves the
    collection exactly as it was before the addition. *)
Theorem X11_add_then_remove (self : ContactManager) (c : Contact)
    (e : option string) :
  inv self → phone c ≠ "" → (add_contact c self).1 = inr tt →
  remove_contact (Some (phone c)) e (add_contact c self).2 = (inr tt, self).
Proof.
  intros I Hp Hadd.
  pose proof (add_contact_inv self c (proj1 I) (proj2 I)) as I'.
  destruct (decide (phone c ∈ _phone_set self)) as [Hps|Hps].
  { by rewrite add_contact_dup_phone in Hadd. }
  destruct (decide (email c ∈ _email_set self)) as [Hes|Hes].
  { by rewrite add_contact_dup_email in Hadd. }
  rewrite add_contact_fresh in * by done.
  rewrite remove_contact_by_phone; [| done | | done].
  2:{ simpl. apply elem_of_app. right. by apply list_elem_of_singleton. }
  assert (c ∉ contacts self) as Hnc.
  { intros Hx. apply Hps. rewrite (proj1 (proj1 I)), elem_of_list_to_set.
    by apply list_elem_of_fmap_2. }
  simpl. f_equal. destruct self as [l sp S E]. simpl in *. f_equal.
  - rewrite filter_app, filter_cons_False, filter_nil, app_nil_r
      by (intros H; by apply H).
    apply filter_Forall_id, Forall_forall. by intros x Hx ->.
  - apply set_eq. intros x.
    rewrite elem_of_difference, elem_of_union, elem_of_singleton.
    split; [by intros [[->|?] ?] |]. intros Hx. split; [by right |].
    by intros ->.
  - apply set_eq. intros x.
    rewrite elem_of_difference, elem_of_union, elem_of_singleton.
    split; [by intros [[->|?] ?] |]. intros Hx. split; [by right |].
    by intros ->.
Qed.

(** X12. In a collection where no two contacts share a phone and no two
    share an email, [==] between stored contacts is identity: two contacts
    of the list that are equal by [Contact.__eq__] are the same contact. *)
Theorem X12_eq_on_stored_contacts (self : ContactManager) (a b : Contact) :
  unique_inv self → a ∈ contacts self → b ∈ contacts self →
  Contact__eq__ a b = true → a = b.
Proof.
  intros [Up Ue] Ha Hb [E|E]%orb_true_iff; apply bool_decide_eq_true in E.
  - by apply (NoDup_fmap_inj phone (contacts self)).
  - by apply (NoDup_fmap_inj email (contacts self)).
Qed.

Lemma after_call_inv (self : ContactManager) (k : call) :
  inv self → inv (after_call self k).
Proof.
  intros I. destruct k as [c|p e|p e]; simpl.
  - by apply add_contact_inv; apply I.
  - by rewrite find_contact_state.
  - by apply remove_contact_inv.
Qed.

(** X13. Whatever calls of [add_contact], [find_contact] and
    [remove_contact] a caller makes on a collection with the invariant, with
    whatever arguments, and whether they return or raise, the collection has
    the invariant after them: the index sets are the phones and the emails
    of its contacts, and no two contacts share a phone or an email. *)
Theorem X13_calls_keep_invariant (ks : list call) (self : ContactManager) :
  inv self → inv (after_calls ks self).
Proof.
  unfold after_calls. revert self.
  induction ks as [|k ks IH]; intros self I; simpl; [done |].
  by apply IH, after_call_inv.
Qed.

End removal_facts.

Lemma book_is_inv : inv book.
Proof. exact book_inv. Qed.

Lemma X8_remove_by_phone_witness :
  ∃ self',
    remove_contact (Some "222222222") (Some "jake@x.com") book
      = (inr tt, self') ∧
    contacts self' = filter (λ x, x ≠ ann) (contacts book) ∧
    (ann ∉ contacts self') ∧
    ("222222222" ∉ _phone_set self') ∧ ("ann@y.com" ∉ _email_set self') ∧
    inv self' ∧
    find_contact (Some "222222222") None self' = (inr None, self').
Proof.
  apply (X8_remove_by_phone book ann (Some "jake@x.com"));
    [exact book_is_inv | compute_done | done].
Defined.

Lemma X9_remove_falls_through_witness :
  remove_contact (Some "333333333") (Some "ann@y.com") book =
  remove_contact None (Some "ann@y.com") book.
Proof.
  apply (X9_remove_falls_through book "333333333" (Some "ann@y.com"));
    compute_done.
Defined.

Lemma X10_remove_by_email_witness :
  ∃ self',
    remove_contact None (Some "jake@x.com") book = (inr tt, self') ∧
    contacts self' = filter (λ x, x ≠ jake) (contacts book) ∧
    (jake ∉ contacts self') ∧
    ("111111111" ∉ _phone_set self') ∧ ("jake@x.com" ∉ _email_set self') ∧
    inv self' ∧
    find_contact None (Some "jake@x.com") self' = (inr None, self').
Proof.
  apply (X10_remove_by_email book jake);
    [exact book_is_inv | compute_done | done].
Defined.

Lemma X11_add_then_remove_witness :
  remove_contact (Some "333333333") None
    (add_contact (mkContact (Some "mike") (Some "w") "mike@m.com" "333333333" None) book).2
  = (inr tt, book).
Proof.
  apply (X11_add_then_remove book
           (mkContact (Some "mike") (Some "w") "mike@m.com" "333333333" None) None);
    [exact book_is_inv | done | vm_compute; reflexivity].
Defined.

Lemma X12_eq_on_stored_contacts_witness : ann = ann.
Proof.
  apply (X12_eq_on_stored_contacts book ann ann);
    [apply book_inv | compute_done | compute_done | reflexivity].
Defined.

Lemma X13_calls_keep_invariant_witness :
  inv (after_calls
         [CallAdd (mkContact (Some "mike") (Some "w") "mike@m.com" "333333333" None);
          CallAdd (mkContact (Some "dup") (Some "d") "dup@m.com" "111111111" None);
          CallRemove (Some "444444444") None;
          CallFind None (Some "ann@y.com");
          CallRemove None (Some "jake@x.com")]
         book).
Proof.
  apply (X13_calls_keep_invariant
           [CallAdd (mkContact (Some "mike") (Some "w") "mike@m.com" "333333333" None);
            CallAdd (mkContact (Some "dup") (Some "d") "dup@m.com" "111111111" None);
            CallRemove (Some "444444444") None;
            CallFind None (Some "ann@y.com");
            CallRemove None (Some "jake@x.com")]
           book).
  exact book_is_inv.
Defined.

(** ** ContactManager: the constructor *)

Section constructor_facts.
Context {PL : PathLib} {JL : JsonLib}.

(** X14. [ContactManager(l, dir)] returns a collection exactly when no two
    contacts of [l] share a phone, no two share an email, and [dir] is an
    existing directory. The collection then holds the contacts of [l] in
    their order, keeps its snapshot in ["contacts.json"] under [dir], and has
    the invariant. *)
Theorem X14_constructor_success (fs : FS) (l : list Contact) (dir : string)
    (self : ContactManager) :
  (ContactManager__init__ fs l dir = inr self ↔
   NoDup (phone <$> l) ∧ NoDup (email <$> l) ∧
   fs !! Path_str (Path_of_str dir) = Some Dir ∧
   self = mkContactManager _ l
            (Path_joinpath (Path_of_str dir) "contacts.json")
            (list_to_set (phone <$> l)) (list_to_set (email <$> l))) ∧
  (ContactManager__init__ fs l dir = inr self →
   contacts self = l ∧ inv self).
Proof.
  split; [split |].
  - apply init_inr.
  - intros (Hp & He & HD & ->). rewrite init_unique by done.
    unfold Path_exists, Path_is_dir. by rewrite HD.
  - intros H. split; [| by apply init_inv in H].
    by apply init_inr in H as (_ & _ & _ & ->).
Qed.

(** X15. For a list without duplicates, the constructor raises the
    [ValueError] that quotes the path when nothing exists under [dir], and
    the [ValueError] of a path that is no directory when [dir] is a file. *)
Theorem X15_constructor_directory_errors (fs : FS) (l : list Contact)
    (dir : string) :
  NoDup (phone <$> l) → NoDup (email <$> l) →
  (fs !! Path_str (Path_of_str dir) = None →
   ContactManager__init__ fs l dir =
     inl (ValueError ("Path does not exist: '" +:+ dir +:+ "'"))) ∧
  (∀ t, fs !! Path_str (Path_of_str dir) = Some (File t) →
   ContactManager__init__ fs l dir =
     inl (ValueError "Path does not point to a directory.")).
Proof.
  intros Hp He. rewrite init_unique by done.
  unfold Path_exists, Path_is_dir. split.
  - by intros ->.
  - by intros t ->.
Qed.

End constructor_facts.

Lemma X14_constructor_success_witness :
  contacts book = [jake; ann] ∧ inv book.
Proof.
  apply (proj2 (X14_constructor_success (PL := str_paths) (JL := obj_json)
                  store_fs [jake; ann] "store" book)).
  vm_compute. reflexivity.
Defined.

Lemma X15_constructor_directory_errors_witness :
  ContactManager__init__ (PL := str_paths) (JL := obj_json)
      store_fs [jake; ann] "elsewhere" =
    inl (ValueError "Path does not exist: 'elsewhere'") ∧
  ContactManager__init__ (PL := str_paths) (JL := obj_json)
      (<["notes.txt" := File ∅]> store_fs) [jake; ann] "notes.txt" =
    inl (ValueError "Path does not point to a directory.").
Proof.
  split.
  - apply (proj1 (X15_constructor_directory_errors (PL := str_paths)
                    (JL := obj_json) store_fs [jake; ann] "elsewhere"
                    (proj1 (proj2 book_inv)) (proj2 (proj2 book_inv)))).
    compute_done.
  - apply (proj2 (X15_constructor_directory_errors (PL := str_paths)
                    (JL := obj_json) (<["notes.txt" := File ∅]> store_fs)
                    [jake; ann] "notes.txt"
                    (proj1 (proj2 book_inv)) (proj2 (proj2 book_inv))) ∅).
    compute_done.
Defined.

(** ** ContactManager: editing *)

Lemma list_alter_lookup {A} (f : A → A) (l : list A) (i : nat) (x : A) :
  l !! i = Some x → alter f i l = <[i := f x]> l.
Proof.
  revert i. induction l as [|y l IH]; intros [|i] H; try done.
  - by injection H as ->.
  - simpl. f_equal. by apply IH.
Qed.

Section edit_facts.
Context {PL : PathLib}.

(** The state a sequence of two calls leaves. *)
Lemma bind_state {A B} (m : M A) (k : A → M B) (self : ContactManager) :
  (bind m k self).2 =
    match (m self).1 with
    | inr a => (k a (m self).2).2
    | inl _ => (m self).2
    end.
Proof. unfold bind. by destruct (m self) as [[e|a] s]. Qed.

Lemma edit_attr_frame (i : nat) (a v : string) (self0 self : ContactManager) :
  frame i self0 self → frame i self0 (edit_attr i a v self).2.
Proof.
  intros (Hs & Hl & Hj). edit_cases; unfold frame; simpl;
    (split; [done |]; split;
     [by rewrite ?length_alter
     | intros j Hne; rewrite ?list_lookup_alter_ne by done; by apply Hj]).
Qed.

Lemma edit_loop_frame (i : nat) (updates : list (string * string))
    (self0 self : ContactManager) :
  frame i self0 self → frame i self0 (edit_loop i updates self).2.
Proof.
  revert self. induction updates as [|[a v] rest IH]; intros self F; [done |].
  cbn [edit_loop]. unfold mbind, M_bind. rewrite bind_state.
  pose proof (edit_attr_frame i a v self0 self F) as F1.
  destruct (edit_attr i a v self).1; [done |].
  rewrite bind_state. specialize (IH _ F1).
  by destruct (edit_loop i rest _).1.
Qed.

Lemma edit_contact_state (p : string) (updates : list (string * string))
    (self : ContactManager) :
  (edit_contact p updates self).2 = self ∨
  ∃ i c, list_find (λ x, phone x = p) (contacts self) = Some (i, c) ∧
         edit_contact p updates self = edit_loop i updates self.
Proof.
  unfold edit_contact, mbind, M_bind, bind, get, raise.
  pose proof (find_contact_state self (Some p) None) as Hs.
  destruct (find_contact (Some p) None self) as [[e|[c|]] s]; simpl in Hs;
    subst s; [by left | | by left].
  destruct (list_find _ _) as [[i c']|] eqn:E; [| by left].
  right. by exists i, c'.
Qed.

(** X18. In a collection whose contacts have distinct phones, and so are
    distinct objects, [edit_contact] changes one contact at most: whatever
    the updates, and whether the call returns or raises, the collection
    keeps its snapshot path and the number of its contacts, and every
    contact but the first one with the phone [phone_id] is as it was. *)
Theorem X18_edit_touches_one_contact (p : string)
    (updates : list (string * string)) (self : ContactManager) :
  NoDup (phone <$> contacts self) →
  store_path (edit_contact p updates self).2 = store_path self ∧
  length (contacts (edit_contact p updates self).2) = length (contacts self) ∧
  ∀ j, (∀ c, list_find (λ x, phone x = p) (contacts self) ≠ Some (j, c)) →
       contacts (edit_contact p updates self).2 !! j = contacts self !! j.
Proof.
  intros _.
  destruct (edit_contact_state p updates self) as [-> | (i & c & E & ->)];
    [done |].
  destruct (edit_loop_frame i updates self self) as (Hs & Hl & Hj); [done |].
  split; [done |]. split; [done |].
  intros j Hne. apply Hj. intros ->. by apply (Hne c).
Qed.

Lemma fmap_alter_same {B} (f : Contact → B) (g : Contact → Contact)
    (i : nat) (l : list Contact) :
  (∀ x, f (g x) = f x) → f <$> alter g i l = f <$> l.
Proof.
  intros H. rewrite (list_fmap_alter f g id).
  - apply list_alter_id. done.
  - apply Forall_forall. intros x _. apply H.
Qed.

Lemma edit_attr_same_keys (i : nat) (a v : string)
    (self0 self : ContactManager) :
  a ≠ "phone" → a ≠ "email" →
  same_keys self0 self → same_keys self0 (edit_attr i a v self).2.
Proof.
  intros Hp He (H1 & H2 & H3 & H4). edit_cases; try done;
    unfold same_keys; simpl;
    (split; [done |]; split; [done |];
     by rewrite ?fmap_alter_same by done).
Qed.

Lemma edit_loop_same_keys (i : nat) (updates : list (string * string))
    (self0 self : ContactManager) :
  Forall (λ u, u.1 ≠ "phone" ∧ u.1 ≠ "email") updates →
  same_keys self0 self → same_keys self0 (edit_loop i updates self).2.
Proof.
  intros Hu. revert self.
  induction Hu as [|[a v] rest [Ha1 Ha2] _ IH]; intros self K; [done |].
  cbn [edit_loop]. unfold mbind, M_bind. rewrite bind_state.
  pose proof (edit_attr_same_keys i a v self0 self Ha1 Ha2 K) as K1.
  destruct (edit_attr i a v self).1; [done |].
  rewrite bind_state. specialize (IH _ K1).
  by destruct (edit_loop i rest _).1.
Qed.

(** X19. An edit that names neither ["phone"] nor ["email"] leaves the keys
    alone: whatever else the updates name, both index sets and the phone and
    the email of every contact are as before, so a collection with the
    invariant has it after the call. *)
Theorem X19_edit_other_attributes (p : string)
    (updates : list (string * string)) (self : ContactManager) :
  Forall (λ u, u.1 ≠ "phone" ∧ u.1 ≠ "email") updates →
  _phone_set (edit_contact p updates self).2 = _phone_set self ∧
  _email_set (edit_contact p updates self).2 = _email_set self ∧
  phone <$> contacts (edit_contact p updates self).2 = phone <$> contacts self ∧
  email <$> contacts (edit_contact p updates self).2 = email <$> contacts self ∧
  (inv self → inv (edit_contact p updates self).2).
Proof.
  intros Hu.
  assert (same_keys self (edit_contact p updates self).2) as (H1 & H2 & H3 & H4).
  { destruct (edit_contact_state p updates self) as [-> | (i & c & E & ->)];
      [done |]. by apply edit_loop_same_keys. }
  repeat (split; [done |]).
  unfold inv, index_inv, unique_inv. by rewrite H1, H2, H3, H4.
Qed.

(** X16. [edit_contact] with the empty string for [phone_id] raises the
    [ValueError] of a missing selector, and with a non-empty [phone_id] that
    is not in the phone index the [ValueError] of an invalid phone
    identifier; in both cases no update is applied. *)
Theorem X16_edit_unknown_phone (p : string) (updates : list (string * string))
    (self : ContactManager) :
  edit_contact "" updates self = (inl no_selector, self) ∧
  (p ≠ "" → p ∉ _phone_set self →
   edit_contact p updates self =
     (inl (ValueError "Invalid phone identifier."), self)).
Proof.
  unfold edit_contact, mbind, M_bind, bind. split.
  - by rewrite find_contact_no_selector.
  - intros Hp Hn.
    rewrite find_contact_phone_miss; [done | by rewrite truthy_Some | done].
Qed.

Lemma kwargs_ok_cons (a v : string) (rest : list (string * string)) :
  kwargs_ok ((a, v) :: rest) → kwargs_ok rest.
Proof.
  unfold kwargs_ok. rewrite fmap_cons, NoDup_cons, !not_elem_of_cons. tauto.
Qed.

(** The loop with its output agrees with the loop of the body: the same
    collection afterwards, the same exception, and the lines of a run that
    returns. *)
Lemma edit_loop_out_body (i : nat) (updates : list (string * string))
    (self : ContactManager) :
  (edit_loop_out i updates self).2 = (edit_loop i updates self).2 ∧
  match (edit_loop i updates self).1 with
  | inr out => (edit_loop_out i updates self).1 = (inr tt, out)
  | inl e => (edit_loop_out i updates self).1.1 = inl e
  end.
Proof.
  revert self. induction updates as [|[a v] rest IH]; intros self; [done |].
  cbn [edit_loop edit_loop_out]. unfold mbind, M_bind, bind, mret, M_ret, ret.
  destruct (edit_attr i a v self) as [[e|out] s]; [done |].
  destruct (IH s) as [IH1 IH2].
  destruct (edit_loop_out i rest s) as [[r out'] s'].
  destruct (edit_loop i rest s) as [[e|out''] s'']; simpl in *.
  - by subst.
  - injection IH2 as -> ->. by subst.
Qed.

(** A call whose arguments bind runs the body. *)
Lemma edit_contact_call_body (p : string) (updates : list (string * string))
    (self : ContactManager) :
  kwargs_ok updates →
  (edit_contact_call p updates self).2 = (edit_contact p updates self).2 ∧
  match (edit_contact p updates self).1 with
  | inr out => (edit_contact_call p updates self).1 = (inr tt, out)
  | inl e => (edit_contact_call p updates self).1.1 = inl e
  end.
Proof.
  intros Hk. unfold edit_contact_call, edit_contact.
  rewrite decide_True by done. unfold mbind, M_bind, bind, get, raise.
  destruct (find_contact (Some p) None self) as [[e|[c|]] s]; try done.
  destruct (list_find _ _) as [[i c']|]; [| done].
  apply edit_loop_out_body.
Qed.


End edit_facts.

Lemma insert_fresh (ps : list string) (i : nat) (p q : string) :
  NoDup ps → ps !! i = Some p → q ∉ ps →
  NoDup (<[i := q]> ps) ∧
  (list_to_set (<[i := q]> ps) : gset string) =
    {[q]} ∪ (list_to_set ps ∖ {[p]}).
Proof.
  intros Hnd Hi Hq.
  assert (∃ l1 l2, ps = l1 ++ p :: l2 ∧ length l1 = i) as (l1 & l2 & -> & <-).
  { exists (take i ps), (drop (S i) ps). split.
    - symmetry. by apply take_drop_middle.
    - rewrite length_take. apply lookup_lt_Some in Hi. lia. }
  clear Hi. rewrite insert_app_r_alt, Nat.sub_diag by done. simpl.
  apply NoDup_app in Hnd as (N1 & N12 & N2).
  apply NoDup_cons in N2 as (Np & N2).
  rewrite elem_of_app, elem_of_cons in Hq.
  split.
  - apply NoDup_app. split; [done |]. split.
    + intros x Hx [->|Hx2]%elem_of_cons; [tauto |].
      apply (N12 x Hx). by right.
    + apply NoDup_cons. split; [tauto | done].
  - apply set_eq. intros x.
    rewrite !list_to_set_app_L, !list_to_set_cons. set_unfold.
    split.
    + intros [H1 | [-> | H2]]; [| by left |].
      * right. split; [by left |]. intros ->. apply (N12 p H1). by left.
      * right. split; [by right; right |]. by intros ->.
    + intros [-> | [[H1 | [-> | H2]] Hne]]; tauto.
Qed.

Section edit_phone.
Context {PL : PathLib}.

Lemma edit_attr_phone (i : nat) (q : string) (c : Contact)
    (self : ContactManager) :
  contacts self !! i = Some c → phone c ∈ _phone_set self →
  edit_attr i "phone" q self =
    (inr [],
     mkContactManager _ (<[i := set_phone q c]> (contacts self))
       (store_path self) ({[q]} ∪ (_phone_set self ∖ {[phone c]}))
       (_email_set self)).
Proof.
  intros Hi Hp. unfold edit_attr, __swap_phone, set_remove, setattr. run.
  rewrite Hi. rewrite decide_False, decide_False, decide_False, decide_True
    by done.
  rewrite decide_True by done. simpl.
  by rewrite (list_alter_lookup _ _ _ c).
Qed.

(** X17. In a collection with the invariant,
    [edit_contact(p, phone=q)] for the non-empty phone [p] of the contact at
    position [i] and a phone [q] that is not in the phone index returns
    normally and prints nothing. Afterwards the contact at position [i] has
    the phone [q] and is otherwise as before, [q] has taken the place of [p]
    in the phone index, the email index is as before, the invariant holds,
    [find_contact(phone=p)] returns [None], and, when [q] is not empty,
    [find_contact(phone=q)] returns the edited contact. *)
Theorem X17_edit_phone (self : ContactManager) (i : nat) (c : Contact)
    (q : string) :
  inv self → contacts self !! i = Some c → phone c ≠ "" →
  q ∉ _phone_set self →
  ∃ self',
    edit_contact (phone c) [("phone", q)] self = (inr [], self') ∧
    contacts self' = <[i := set_phone q c]> (contacts self) ∧
    _phone_set self' = {[q]} ∪ (_phone_set self ∖ {[phone c]}) ∧
    _email_set self' = _email_set self ∧
    inv self' ∧
    find_contact (Some (phone c)) None self' = (inr None, self') ∧
    (q ≠ "" →
     find_contact (Some q) None self' = (inr (Some (set_phone q c)), self')).
Proof.
  intros [[Ip Ie] [Up Ue]] Hi Hp Hq.
  assert (c ∈ contacts self) as Hc by (by apply list_elem_of_lookup_2 with i).
  assert (phone c ∈ _phone_set self) as Hps.
  { rewrite Ip, elem_of_list_to_set. by apply list_elem_of_fmap_2. }
  assert ((phone <$> contacts self) !! i = Some (phone c)) as Hpi
    by (by rewrite list_lookup_fmap, Hi).
  assert (q ∉ phone <$> contacts self) as Hqn
    by (by rewrite Ip, elem_of_list_to_set in Hq).
  destruct (insert_fresh _ i (phone c) q Up Hpi Hqn) as [Up' Ip'].
  set (self' := mkContactManager _ (<[i := set_phone q c]> (contacts self))
       (store_path self) ({[q]} ∪ (_phone_set self ∖ {[phone c]}))
       (_email_set self)).
  assert (inv self') as I'.
  { unfold inv, index_inv, unique_inv, self'. simpl.
    rewrite !list_fmap_insert. simpl.
    rewrite (list_insert_id (email <$> contacts self))
      by (by rewrite list_lookup_fmap, Hi).
    by rewrite Ip', <- Ip. }
  assert (edit_contact (phone c) [("phone", q)] self = (inr [], self')) as Hedit.
  { unfold edit_contact, mbind, M_bind, bind at 1.
    rewrite find_contact_phone_eq by done.
    destruct (list_find_first (λ x, phone x = phone c) (contacts self))
      as [(i' & c' & E & Hi' & Hc' & _) | [_ Hn]]; [| by destruct (Hn c)].
    rewrite E. simpl. unfold bind at 1, get. rewrite E.
    assert (i' = i) as ->.
    { apply (NoDup_lookup (phone <$> contacts self) i' i (phone c)); [done | |
        done]. by rewrite list_lookup_fmap, Hi', <- Hc'. }
    cbn [edit_loop]. unfold mbind, M_bind, bind.
    by rewrite (edit_attr_phone i q c). }
  exists self'. split; [done |]. split; [done |]. split; [done |].
  split; [done |]. split; [done |].
  assert (q ≠ phone c) as Hne by (by intros ->).
  split.
  - apply find_contact_phone_miss; [by rewrite truthy_Some |]. simpl.
    rewrite elem_of_union, elem_of_difference, !elem_of_singleton.
    intros [?|[_ ?]]; done.
  - intros Hq0. rewrite find_contact_phone_eq; [| apply I' | done].
    destruct (list_find_first (λ x, phone x = q) (contacts self'))
      as [(j & y & E & Hj & Hy & _) | [_ Hn]].
    + rewrite E. simpl. assert (y = set_phone q c) as ->; [| done].
      apply (NoDup_fmap_inj phone (contacts self')); [apply I' | | | done].
      * by apply list_elem_of_lookup_2 with j.
      * apply list_elem_of_lookup_2 with i. simpl.
        apply list_lookup_insert_eq. by apply lookup_lt_Some with c.
    + destruct (Hn (set_phone q c)); [| done].
      apply list_elem_of_lookup_2 with i. simpl.
      apply list_lookup_insert_eq. by apply lookup_lt_Some with c.
Qed.

End edit_phone.

Lemma X16_edit_unknown_phone_witness :
  edit_contact "" [("first_name", "x")] book = (inl no_selector, book) ∧
  edit_contact "test" [("first_name", "x")] book =
    (inl (ValueError "Invalid phone identifier."), book).
Proof.
  split.
  - apply (proj1 (X16_edit_unknown_phone "" [("first_name", "x")] book)).
  - apply (proj2 (X16_edit_unknown_phone "test" [("first_name", "x")] book));
      compute_done.
Defined.

Lemma X17_edit_phone_witness :
  ∃ self',
    edit_contact "111111111" [("phone", "999999999")] book = (inr [], self') ∧
    contacts self' = <[0 := set_phone "999999999" jake]> (contacts book) ∧
    _phone_set self' = {["999999999"]} ∪ (_phone_set book ∖ {["111111111"]}) ∧
    _email_set self' = _email_set book ∧
    inv self' ∧
    find_contact (Some "111111111") None self' = (inr None, self') ∧
    ("999999999" ≠ "" →
     find_contact (Some "999999999") None self' =
       (inr (Some (set_phone "999999999" jake)), self')).
Proof.
  apply (X17_edit_phone book 0 jake "999999999");
    [exact book_is_inv | done | done | compute_done].
Defined.

Lemma X18_edit_touches_one_contact_witness :
  contacts (edit_contact "111111111"
              [("phone", "222222222"); ("nick", "jj"); ("email", "bad")]
              book).2 !! 1 = contacts book !! 1.
Proof.
  apply (proj2 (proj2 (X18_edit_touches_one_contact "111111111"
           [("phone", "222222222"); ("nick", "jj"); ("email", "bad")] book
           (proj1 (proj2 book_is_inv))))).
  intros c. vm_compute. discriminate.
Defined.

Lemma X19_edit_other_attributes_witness :
  _phone_set (edit_contact "111111111"
                [("first_name", "j"); ("address", "x"); ("nick", "jj")]
                book).2 = _phone_set book ∧
  _email_set (edit_contact "111111111"
                [("first_name", "j"); ("address", "x"); ("nick", "jj")]
                book).2 = _email_set book ∧
  phone <$> contacts (edit_contact "111111111"
                [("first_name", "j"); ("address", "x"); ("nick", "jj")]
                book).2 = phone <$> contacts book ∧
  email <$> contacts (edit_contact "111111111"
                [("first_name", "j"); ("address", "x"); ("nick", "jj")]
                book).2 = email <$> contacts book ∧
  (inv book →
   inv (edit_contact "111111111"
          [("first_name", "j"); ("address", "x"); ("nick", "jj")] book).2).
Proof.
  apply (X19_edit_other_attributes "111111111"
           [("first_name", "j"); ("address", "x"); ("nick", "jj")] book).
  repeat constructor; done.
Defined.


(** ** ContactManager: the snapshot file *)

Lemma from_dicts_inr {UD : UnicodeData}
    (l : list (gmap string (option string))) (cs : list Contact) :
  from_dicts l = inr cs → l = to_dict <$> cs ∧ Forall valid_contact cs.
Proof.
  revert cs. induction l as [|d l IH]; intros cs; simpl.
  - by intros [= <-].
  - destruct (from_dict d) as [e|c] eqn:Ed; [done |].
    destruct (from_dicts l) as [e|cs'] eqn:El; [done |].
    intros [= <-]. apply from_dict_inr in Ed as (<- & Hv & _).
    destruct (IH cs' eq_refl) as [-> Hvs]. split; [done |].
    by constructor.
Qed.

Section snapshot_facts.
Context {PL : PathLib} {JL : JsonLib} {UD : UnicodeData}.

Lemma to_file_open_w (self : ContactManager) (fs : FS) :
  to_file self fs =
    open_w fs (Path_str (store_path self)) (json_dump (to_json self)).
Proof. unfold to_file. unfold to_json at 1. by simplify_map_eq. Qed.

(** X21. When [to_file] returns, the snapshot path holds the dump of
    [to_json()], every other path of the file system is what it was, and a
    second [to_file] writes the same file again: the file is replaced as a
    whole, never appended to. *)
Theorem X21_to_file_replaces (self : ContactManager) (fs fs' : FS) :
  to_file self fs = inr fs' →
  fs' !! Path_str (store_path self) = Some (File (json_dump (to_json self))) ∧
  (∀ k, k ≠ Path_str (store_path self) → fs' !! k = fs !! k) ∧
  to_file self fs' = inr fs'.
Proof.
  rewrite !to_file_open_w.
  generalize (Path_str (store_path self)) (json_dump (to_json self)).
  intros k t. unfold open_w.
  destruct (fs !! Path_str (Path_parent (Path_of_str k))) as [[|t1]|] eqn:Ep;
    destruct (fs !! k) as [[|t0]|] eqn:Ek; try done; intros [= <-];
    (split; [by rewrite lookup_insert_eq |];
     split; [intros k' Hk'; by rewrite lookup_insert_ne |];
     rewrite lookup_insert_eq, lookup_insert_ne, Ep
       by (intros E; rewrite <- E, Ek in Ep; done);
     by rewrite insert_insert_eq).
Qed.


(** An object under ["contacts"] is iterated by its keys: the empty one
    gives the collection without contacts. *)
Lemma from_file_empty_object (fs : FS) (path : Path) (t : text) (s : string) :
  fs !! Path_str path = Some (File t) → Path_suffix path = ".json" →
  json_load t =
    Some (<["contacts" := JObj []]> (<["store_path" := JStr s]> ∅)) →
  from_file fs path =
    ContactManager__init__ fs [] (Path_str (Path_parent (Path_of_str s))).
Proof.
  intros Ek Es Ej. unfold from_file, Path_exists, Path_is_file, open_r.
  rewrite Ek, Ej. simpl. rewrite bool_decide_eq_true_2 by done. simpl.
  by simplify_map_eq.
Qed.

Context {PLL : PathLibLaws PL} {JLL : JsonLibLaws JL}.


End snapshot_facts.

Lemma X21_to_file_replaces_witness :
  <["store/contacts.json" := File (to_json book)]> store_fs
    !! Path_str (store_path book) = Some (File (json_dump (to_json book))) ∧
  (∀ k, k ≠ Path_str (store_path book) →
        <["store/contacts.json" := File (to_json book)]> store_fs !! k
        = store_fs !! k) ∧
  to_file (JL := obj_json) book
    (<["store/contacts.json" := File (to_json book)]> store_fs)
  = inr (<["store/contacts.json" := File (to_json book)]> store_fs).
Proof.
  apply (X21_to_file_replaces (PL := str_paths) (JL := obj_json) book store_fs
           (<["store/contacts.json" := File (to_json book)]> store_fs)).
  vm_compute. reflexivity.
Defined.



Section edit_email.
Context {PL : PathLib}.

Lemma edit_attr_email (i : nat) (q : string) (c : Contact)
    (self : ContactManager) :
  contacts self !! i = Some c → email c ∈ _email_set self →
  edit_attr i "email" q self =
    (inr [],
     mkContactManager _ (<[i := set_email q c]> (contacts self))
       (store_path self) (_phone_set self)
       ({[q]} ∪ (_email_set self ∖ {[email c]}))).
Proof.
  intros Hi Hp. unfold edit_attr, __swap_email, set_remove, setattr. run.
  rewrite Hi. rewrite decide_False, decide_False, decide_True by done.
  rewrite decide_True by done. simpl.
  by rewrite (list_alter_lookup _ _ _ c).
Qed.


End edit_email.

